(** * G1EvacFailureRegions::record — evacuation-failure region tracker

    A shallow embedding of
    [src/hotspot/share/gc/g1/g1EvacFailureRegions.inline.hpp] (OpenJDK 22).

    The tracker is a presence bitmap (one bit per heap region), a
    pre-sized array of region indices and an atomic length counter.
    [record] claims the bit of a region, and the claimant that wins
    appends the region to the array and notifies the region object.

    The file has two layers:
    - [record], the function as the source writes it, run on its own
      (no other thread between its statements);
    - [Machine], the same four statements as separately scheduled
      atomic steps of many invocations, interleaved by a schedule.  *)

From Stdlib Require Import NArith Lia.
From stdpp Require Import base numbers option list.

Local Open Scope N_scope.

(** ** Machine integers *)

(** [uint] of the source: 32 bits, unsigned; arithmetic wraps. *)
Abbreviation uint := N (only parsing).
Definition uint_modulus : N := 2 ^ 32.
Definition uint_wrap (n : N) : uint := n mod uint_modulus.

(** ** Faults

    The source has no recoverable error path; an index outside its
    container is a contract violation (an assert in debug builds,
    undefined in product builds).  The embedding makes both explicit. *)
Inductive fault : Type :=
| BitIndexOutOfRange      (* par_set_bit: bit index >= bitmap size *)
| ArrayIndexOutOfBounds.  (* _evac_failure_regions[offset], offset >= capacity *)

Inductive result (A : Type) : Type :=
| Ok (a : A)
| Fault (f : fault).
Arguments Ok {A} a.
Arguments Fault {A} f.

Definition bind {A B : Type} (m : result A) (k : A → result B) : result B :=
  match m with
  | Ok a => k a
  | Fault f => Fault f
  end.

Notation "'let*' x := m 'in' k" := (bind m (fun x => k))
  (at level 10, x pattern, m at level 100, k at level 200,
   format "'[v' 'let*'  x  :=  m  'in' '/' k ']'").

(** ** Presence bitmap *)
Module BitMap.

(** One [bool] per bit.  The words that store the bits belong to
    HotSpot's [BitMap] class ([utilities/bitMap.hpp]), which
    [g1EvacFailureRegions.inline.hpp] only uses. *)
Abbreviation t := (list bool) (only parsing).

Definition size (bm : t) : N := N.of_nat (length bm).

Definition at_ (bm : t) (bit : N) : bool :=
  default false (bm !! N.to_nat bit).

(** Modelled from the spec: [BitMap::par_set_bit], which [record]
    calls and whose body is in [utilities/bitMap.inline.hpp].
    "Precondition: 0 <= region_id < capacity.  Effect: atomically
    test-and-set the bit for region_id; returns true iff this call
    performed the 0->1 transition, false if the bit was already set by
    a prior caller." *)
Definition par_set_bit (bit : N) (bm : t) : result (bool * t) :=
  if bit <? size bm then
    if at_ bm bit then Ok (false, bm)
    else Ok (true, <[N.to_nat bit := true]> bm)
  else Fault BitIndexOutOfRange.

(** Modelled from the spec: the bitmap's reset, which [record] does
    not call.  "reset() clears all bits". *)
Definition clear (bm : t) : t := replicate (length bm) false.

End BitMap.

(** ** Atomic counter *)

(** Modelled from the spec: [Atomic::fetch_then_add], which [record]
    calls and whose body is in [runtime/atomic.hpp].  "Atomically
    reserve the next free slot by incrementing a counter and return
    the pre-increment value."  The pair is (value returned, new
    content of the location); the location is a [uint], so the sum
    wraps. *)
Definition fetch_then_add (dest : uint) (add_value : uint) : uint * uint :=
  (dest, uint_wrap (dest + add_value)).

(** ** Tracker and heap *)

(** The fields [record] touches. *)
Record G1EvacFailureRegions : Type := mkTracker {
  _regions_failed_evacuation : BitMap.t;
  _evac_failure_regions : list uint;
  _evac_failure_regions_cur_length : uint
}.

(** [_evac_failure_regions[offset] = value]: a plain C array store. *)
Definition array_store (arr : list uint) (offset : N) (value : uint)
  : result (list uint) :=
  if offset <? N.of_nat (length arr) then Ok (<[N.to_nat offset := value]> arr)
  else Fault ArrayIndexOutOfBounds.

(** Modelled from the spec: [G1CollectedHeap::heap()], [region_at]
    and [HeapRegion::note_evacuation_failure], which [record] calls
    and which belong to the heap ("a way to resolve a region id to its
    region object, and a note_evacuation_failure() notification method
    on that object").  The heap is observed only through the
    notifications its regions receive, kept in the order they were
    issued. *)
Abbreviation G1CollectedHeap := (list uint) (only parsing).

Definition note_evacuation_failure (region_idx : uint) (g1h : G1CollectedHeap)
  : G1CollectedHeap :=
  g1h ++ [region_idx].

Record World : Type := mkWorld {
  tracker : G1EvacFailureRegions;
  heap : G1CollectedHeap
}.

Definition bit_set (w : World) (region_idx : uint) : bool :=
  BitMap.at_ (_regions_failed_evacuation (tracker w)) region_idx.

Definition cur_length (w : World) : uint :=
  _evac_failure_regions_cur_length (tracker w).

Definition slots (w : World) : list uint :=
  _evac_failure_regions (tracker w).

(** ** [G1EvacFailureRegions::record] *)
Definition record (region_idx : uint) (w : World) : result (bool * World) :=
  let this := tracker w in
  let* (success, bm) :=
    BitMap.par_set_bit region_idx (_regions_failed_evacuation this) in
  if success then
    let '(offset, len) := fetch_then_add (_evac_failure_regions_cur_length this) 1 in
    let* arr := array_store (_evac_failure_regions this) offset region_idx in
    let g1h := note_evacuation_failure region_idx (heap w) in
    Ok (success, mkWorld (mkTracker bm arr len) g1h)
  else
    Ok (success, mkWorld (mkTracker bm (_evac_failure_regions this)
                                    (_evac_failure_regions_cur_length this))
                         (heap w)).

(** A run of calls one after the other, with the values they return. *)
Fixpoint record_all (calls : list uint) (w : World) : result (list bool * World) :=
  match calls with
  | [] => Ok ([], w)
  | r :: calls' =>
      let* (b, w1) := record r w in
      let* (bs, w2) := record_all calls' w1 in
      Ok (b :: bs, w2)
  end.

(** ** Lifecycle operations *)

(** Modelled from the spec: [reset], [count] and [has_failed_regions],
    whose bodies are not in [g1EvacFailureRegions.inline.hpp].
    "reset() clears all bits"; "reset() sets the counter back to
    zero"; "has_failed_regions() -> bool (length > 0), count() ->
    size_t (log length)"; the storage is "pre-sized at
    construction/reset time" and keeps its size. *)
Definition reset (this : G1EvacFailureRegions) : G1EvacFailureRegions :=
  mkTracker (BitMap.clear (_regions_failed_evacuation this))
            (_evac_failure_regions this)
            0.

Definition count (this : G1EvacFailureRegions) : N :=
  _evac_failure_regions_cur_length this.

Definition has_failed_regions (this : G1EvacFailureRegions) : bool :=
  0 <? _evac_failure_regions_cur_length this.

(** The failed-region sequence the consumer iterates: the array
    entries at indices [0, length). *)
Definition failed_regions (w : World) : list uint :=
  take (N.to_nat (cur_length w)) (slots w).

(** A tracker in state Idle, sized for [max_regions] regions: every bit
    clear, length zero, bitmap and array of [max_regions] entries.  The
    array content is whatever the storage held.  [max_regions] is a
    [uint]. *)
Definition idle (max_regions : N) (this : G1EvacFailureRegions) : Prop :=
  max_regions < uint_modulus
  ∧ _regions_failed_evacuation this = replicate (N.to_nat max_regions) false
  ∧ length (_evac_failure_regions this) = N.to_nat max_regions
  ∧ _evac_failure_regions_cur_length this = 0.

(** ** Interleaved execution

    [record] has four effects on shared memory, each on one location:
    the bit claim (atomic read-modify-write), the counter increment
    (atomic read-modify-write), the array store and the notification.
    An invocation is a program point of [record] with the locals that
    are live there; a schedule picks which invocation executes its
    next statement.

    The bit claim is [memory_order_relaxed]: it orders nothing but the
    modifications of the bitmap itself.  That is all the machine relies
    on: each read-modify-write sees the latest value of its own
    location, an array slot is written by the one invocation that
    reserved it, and no statement of [record] reads the array or the
    notifications. *)
Module Machine.

Inductive invocation : Type :=
| AtSetBit (region_idx : uint)                (* before line 33 *)
| AtFetchAdd (region_idx : uint)              (* success; before line 36 *)
| AtStore (region_idx : uint) (offset : N)    (* before line 37 *)
| AtNotify (region_idx : uint)                (* before lines 39-41 *)
| Returned (region_idx : uint) (success : bool). (* after line 43 *)

#[global] Instance invocation_eq_dec : EqDecision invocation.
Proof. solve_decision. Defined.

Definition region_of (i : invocation) : uint :=
  match i with
  | AtSetBit r | AtFetchAdd r | AtStore r _ | AtNotify r | Returned r _ => r
  end.

Definition is_returned (i : invocation) : bool :=
  match i with Returned _ _ => true | _ => false end.

(** One statement of one invocation. *)
Definition step (i : invocation) (w : World) : result (invocation * World) :=
  let this := tracker w in
  match i with
  | AtSetBit region_idx =>
      let* (success, bm) :=
        BitMap.par_set_bit region_idx (_regions_failed_evacuation this) in
      Ok (if success then AtFetchAdd region_idx else Returned region_idx false,
          mkWorld (mkTracker bm (_evac_failure_regions this)
                             (_evac_failure_regions_cur_length this))
                  (heap w))
  | AtFetchAdd region_idx =>
      let '(offset, len) :=
        fetch_then_add (_evac_failure_regions_cur_length this) 1 in
      Ok (AtStore region_idx offset,
          mkWorld (mkTracker (_regions_failed_evacuation this)
                             (_evac_failure_regions this) len)
                  (heap w))
  | AtStore region_idx offset =>
      let* arr := array_store (_evac_failure_regions this) offset region_idx in
      Ok (AtNotify region_idx,
          mkWorld (mkTracker (_regions_failed_evacuation this) arr
                             (_evac_failure_regions_cur_length this))
                  (heap w))
  | AtNotify region_idx =>
      Ok (Returned region_idx true,
          mkWorld this (note_evacuation_failure region_idx (heap w)))
  | Returned _ _ => Ok (i, w)
  end.

Record config : Type := mkConfig {
  shared : World;
  pool : list invocation
}.

(** A schedule: start a new invocation of [record], or let invocation
    [tid] execute its next statement.  Scheduling an invocation that
    has returned, or none, changes nothing. *)
Inductive action : Type :=
| Invoke (region_idx : uint)
| Run (tid : nat).

Definition exec (a : action) (c : config) : result config :=
  match a with
  | Invoke region_idx => Ok (mkConfig (shared c) (pool c ++ [AtSetBit region_idx]))
  | Run tid =>
      match pool c !! tid with
      | None => Ok c
      | Some i =>
          let* (i', w') := step i (shared c) in
          Ok (mkConfig w' (<[tid := i']> (pool c)))
      end
  end.

Fixpoint run (sched : list action) (c : config) : result config :=
  match sched with
  | [] => Ok c
  | a :: sched' => let* c' := exec a c in run sched' c'
  end.

(** The start of a Recording phase: an idle tracker, no notification
    issued yet, no invocation started. *)
Definition init (this : G1EvacFailureRegions) : config :=
  mkConfig (mkWorld this []) [].

Definition reachable (max_regions : N) (c : config) : Prop :=
  ∃ this sched, idle max_regions this ∧ run sched (init this) = Ok c.

(** Every invocation has returned: the parallel phase has joined. *)
Definition sealed (max_regions : N) (c : config) : Prop :=
  reachable max_regions c ∧ forallb is_returned (pool c) = true.

Definition in_range (max_regions : N) (a : action) : Prop :=
  match a with
  | Invoke region_idx => region_idx < max_regions
  | Run _ => True
  end.

(** Regions whose claim an invocation has won ([won]), whose slot it
    has reserved ([reserved]), whose notification it has issued
    ([notified]). *)
Definition won (i : invocation) : option uint :=
  match i with
  | AtFetchAdd r | AtStore r _ | AtNotify r | Returned r true => Some r
  | AtSetBit _ | Returned _ false => None
  end.

Definition reserved (i : invocation) : option uint :=
  match i with
  | AtStore r _ | AtNotify r | Returned r true => Some r
  | AtSetBit _ | AtFetchAdd _ | Returned _ false => None
  end.

Definition notified (i : invocation) : option uint :=
  match i with
  | Returned r true => Some r
  | _ => None
  end.

(** The invocations of [record(r)] in a pool, and those of them that
    returned [b]. *)
Definition calls_of (r : uint) (p : list invocation) : list invocation :=
  filter (λ i, region_of i = r) p.

Definition returns_of (r : uint) (b : bool) (p : list invocation) : nat :=
  length (filter (λ i, i = Returned r b) p).

(** The value of the presence bit of [r] before a schedule and after
    each of its actions, up to the first fault. *)
Fixpoint bit_history (r : uint) (sched : list action) (c : config) : list bool :=
  bit_set (shared c) r ::
  match sched with
  | [] => []
  | a :: sched' =>
      match exec a c with
      | Ok c' => bit_history r sched' c'
      | Fault _ => []
      end
  end.

(** How many times a sequence of bit values goes from false to true. *)
Fixpoint rises (bs : list bool) : nat :=
  match bs with
  | b :: (b' :: _) as bs' => (if negb b && b' then 1 else 0) + rises bs'
  | _ => 0
  end.

(** What every reachable configuration satisfies.  [glog] lists, by
    slot index, the region for which that slot was reserved: the slot
    holds it already, or the invocation that reserved it is about to
    store it. *)
Record Inv (max_regions : N) (c : config) : Prop := mkInv {
  inv_max : max_regions < uint_modulus;
  inv_bitmap_size :
    length (_regions_failed_evacuation (tracker (shared c))) = N.to_nat max_regions;
  inv_array_size : length (slots (shared c)) = N.to_nat max_regions;
  inv_won_nodup : NoDup (omap won (pool c));
  inv_bits : ∀ r, bit_set (shared c) r = true ↔ r ∈ omap won (pool c);
  inv_returned : ∀ r b, Returned r b ∈ pool c → bit_set (shared c) r = true;
  inv_log : ∃ glog : list uint,
    N.of_nat (length glog) = cur_length (shared c)
    ∧ glog ≡ₚ omap reserved (pool c)
    ∧ (∀ i r, glog !! i = Some r →
         slots (shared c) !! i = Some r ∨ AtStore r (N.of_nat i) ∈ pool c)
    ∧ (∀ r off, AtStore r off ∈ pool c → glog !! N.to_nat off = Some r);
  inv_heap : heap (shared c) ≡ₚ omap notified (pool c)
}.

End Machine.

Import Machine.

(** How many notifications region [r] has received. *)
Definition notifications_to (r : uint) (g1h : G1CollectedHeap) : nat :=
  length (filter (λ x, x = r) g1h).

(** ** Vocabulary of the further properties *)

#[global] Instance action_eq_dec : EqDecision action.
Proof. solve_decision. Defined.

(** The region ids a schedule passes to [record], in the order of the
    invocations. *)
Definition invoked (sched : list action) : list uint :=
  omap (λ a, match a with Invoke r => Some r | Run _ => None end) sched.

(** How often a schedule lets invocation [tid] execute. *)
Definition runs_of (tid : nat) (sched : list action) : nat :=
  length (filter (λ a, a = Run tid) sched).

(** The array offsets held by invocations that have incremented the
    counter and not yet stored. *)
Definition pending_offsets (p : list invocation) : list N :=
  omap (λ i, match i with AtStore _ offset => Some offset | _ => None end) p.

(** The statements of [record] an invocation has still to execute. *)
Definition steps_left (i : invocation) : nat :=
  match i with
  | AtSetBit _ => 4
  | AtFetchAdd _ => 3
  | AtStore _ _ => 2
  | AtNotify _ => 1
  | Returned _ _ => 0
  end.

(** The region ids of [calls] that are not in [seen], each kept where
    it occurs first. *)
Fixpoint first_occurrences (seen calls : list uint) : list uint :=
  match calls with
  | [] => []
  | r :: calls' =>
      if decide (r ∈ seen) then first_occurrences seen calls'
      else r :: first_occurrences (r :: seen) calls'
  end.

(** ** The scenario of the specification

    Four regions.  A and B both record region 2, C records region 0.
    The array starts with whatever its storage held (here 9s). *)
Definition scenario_idle : G1EvacFailureRegions :=
  mkTracker [false; false; false; false] [9; 9; 9; 9] 0.

(** A and B are invoked; A claims bit 2, B finds it set; A appends and
    notifies; C is invoked and runs to its return. *)
Definition scenario_schedule : list action :=
  [Invoke 2; Invoke 2; Run 0; Run 1; Run 0; Run 0; Run 0;
   Invoke 0; Run 2; Run 2; Run 2; Run 2].

Definition scenario_sealed : config :=
  mkConfig (mkWorld (mkTracker [true; false; true; false] [2; 0; 9; 9] 2) [2; 0])
           [Returned 2 true; Returned 2 false; Returned 0 true].

(** A and C are both between their counter increment and their array
    store; B has not yet tried its claim. *)
Definition scenario_racing_schedule : list action :=
  [Invoke 2; Invoke 2; Invoke 0; Run 2; Run 0; Run 2; Run 0].

Definition scenario_racing : config :=
  mkConfig (mkWorld (mkTracker [true; false; true; false] [9; 9; 9; 9] 2) [])
           [AtStore 2 1; AtSetBit 2; AtStore 0 0].

(** * Proofs *)

(** ** Lists, bits and counters *)

Lemma nodup_bounded_length (l : list N) (n : N) :
  NoDup l → (∀ x, x ∈ l → x < n) → N.of_nat (length l) ≤ n.
Proof.
  intros Hnd Hlt.
  assert (Hsub : l ⊆+ (N.of_nat <$> seq 0 (N.to_nat n))).
  { apply NoDup_submseteq; [done|]. intros x Hx.
    apply list_elem_of_fmap. exists (N.to_nat x). split; [lia|].
    apply elem_of_seq. specialize (Hlt x Hx). lia. }
  apply submseteq_length in Hsub.
  rewrite length_fmap, length_seq in Hsub. lia.
Qed.

Lemma lookup_agree_take {A} (l k : list A) :
  (∀ i x, l !! i = Some x → k !! i = Some x) → take (length l) k = l.
Proof.
  revert k. induction l as [|a l IH]; intros k H; [done|].
  destruct k as [|b k].
  - specialize (H 0%nat a eq_refl). done.
  - pose proof (H 0%nat a eq_refl) as H0. simpl in H0. injection H0 as ->.
    simpl. f_equal. apply IH. intros i x Hi. exact (H (S i) x Hi).
Qed.

Lemma at_true_lt (bm : BitMap.t) (bit : N) :
  BitMap.at_ bm bit = true → bit < BitMap.size bm.
Proof.
  unfold BitMap.at_, BitMap.size. intros H.
  destruct (bm !! N.to_nat bit) eqn:E; [|done].
  apply lookup_lt_Some in E. lia.
Qed.

Lemma at_insert_eq (bm : BitMap.t) (bit : N) :
  bit < BitMap.size bm → BitMap.at_ (<[N.to_nat bit := true]> bm) bit = true.
Proof.
  unfold BitMap.at_, BitMap.size. intros H.
  rewrite list_lookup_insert_eq by lia. done.
Qed.

Lemma at_insert_ne (bm : BitMap.t) (bit bit' : N) :
  bit ≠ bit' → BitMap.at_ (<[N.to_nat bit := true]> bm) bit' = BitMap.at_ bm bit'.
Proof.
  unfold BitMap.at_. intros H.
  rewrite list_lookup_insert_ne by lia. done.
Qed.

Lemma at_replicate_false (n : nat) (bit : N) :
  BitMap.at_ (replicate n false) bit = false.
Proof.
  unfold BitMap.at_.
  destruct (replicate n false !! N.to_nat bit) eqn:E; [|done].
  apply lookup_replicate in E as [-> _]. done.
Qed.

Lemma uint_wrap_small (n : N) : n < uint_modulus → uint_wrap n = n.
Proof. intros H. unfold uint_wrap. by apply N.mod_small. Qed.

(** ** [record] run on its own *)

Lemma record_already_set (r : uint) (w : World) :
  bit_set w r = true → record r w = Ok (false, w).
Proof.
  destruct w as [[bm arr len] h]. unfold bit_set, record. simpl. intros Hbit.
  unfold BitMap.par_set_bit. rewrite Hbit.
  apply at_true_lt, N.ltb_lt in Hbit. rewrite Hbit. done.
Qed.

Lemma record_claims (r : uint) (w : World) :
  r < BitMap.size (_regions_failed_evacuation (tracker w)) →
  bit_set w r = false →
  cur_length w < N.of_nat (length (slots w)) →
  record r w =
    Ok (true,
        mkWorld (mkTracker (<[N.to_nat r := true]> (_regions_failed_evacuation (tracker w)))
                           (<[N.to_nat (cur_length w) := r]> (slots w))
                           (uint_wrap (cur_length w + 1)))
                (heap w ++ [r])).
Proof.
  destruct w as [[bm arr len] h]. unfold bit_set, cur_length, slots, record. simpl.
  intros Hr Hbit Hlen. unfold BitMap.par_set_bit, array_store.
  apply N.ltb_lt in Hr, Hlen. rewrite Hr, Hbit. simpl. rewrite Hlen. done.
Qed.

Lemma record_inv (r : uint) (w w' : World) (b : bool) :
  record r w = Ok (b, w') →
  r < BitMap.size (_regions_failed_evacuation (tracker w))
  ∧ b = negb (bit_set w r)
  ∧ (b = true → cur_length w < N.of_nat (length (slots w))).
Proof.
  destruct w as [[bm arr len] h]. unfold bit_set, cur_length, slots, record. simpl.
  unfold BitMap.par_set_bit, array_store.
  destruct (r <? BitMap.size bm) eqn:Hr; [|done]. apply N.ltb_lt in Hr.
  destruct (BitMap.at_ bm r); simpl.
  - intros [= <- <-]. done.
  - destruct (len <? N.of_nat (length arr)) eqn:Hlen; [|done].
    apply N.ltb_lt in Hlen. simpl. intros [= <- <-]. done.
Qed.

(** ** Pools *)

Lemma pool_at (p : list invocation) (tid : nat) (i : invocation) :
  p !! tid = Some i →
  ∃ l1 l2, p = l1 ++ i :: l2 ∧ ∀ i', <[tid := i']> p = l1 ++ i' :: l2.
Proof.
  intros H. apply list_elem_of_split_length in H as (l1 & l2 & -> & ->).
  exists l1, l2. split; [done|]. intros i'.
  rewrite insert_app_r_alt by lia. by rewrite Nat.sub_diag.
Qed.

Lemma omap_middle {B} (f : invocation → option B) (l1 l2 : list invocation) i :
  omap f (l1 ++ i :: l2) =
    omap f l1 ++ match f i with Some x => [x] | None => [] end ++ omap f l2.
Proof. rewrite omap_app. simpl. by destruct (f i). Qed.

Lemma reserved_sublist_won (p : list invocation) :
  omap reserved p `sublist_of` omap won p.
Proof.
  induction p as [|i p IH]; [done|].
  destruct i as [r|r|r off|r|r []]; simpl; try done;
    by (apply sublist_skip || apply sublist_cons).
Qed.

Lemma elem_of_middle (l1 l2 : list invocation) (i j : invocation) :
  j ∈ l1 ++ i :: l2 ↔ j = i ∨ j ∈ l1 ++ l2.
Proof. rewrite !elem_of_app, elem_of_cons. tauto. Qed.

(** The relation between the reserved slots and the pool is not
    touched when an invocation that is not at its array store moves to
    a program point that is not the array store. *)
Lemma slots_frame (glog arr : list uint) (l1 l2 : list invocation) (i i' : invocation) :
  (∀ k r, glog !! k = Some r →
     arr !! k = Some r ∨ AtStore r (N.of_nat k) ∈ l1 ++ i :: l2) →
  (∀ r off, AtStore r off ∈ l1 ++ i :: l2 → glog !! N.to_nat off = Some r) →
  (∀ r off, i ≠ AtStore r off) →
  (∀ r off, i' ≠ AtStore r off) →
  (∀ k r, glog !! k = Some r →
     arr !! k = Some r ∨ AtStore r (N.of_nat k) ∈ l1 ++ i' :: l2)
  ∧ (∀ r off, AtStore r off ∈ l1 ++ i' :: l2 → glog !! N.to_nat off = Some r).
Proof.
  intros Hslots Hstore Hi Hi'. split.
  - intros k r Hk. destruct (Hslots k r Hk) as [|[Heq|Hin]%elem_of_middle]; [by left| |].
    + by destruct (Hi r (N.of_nat k)).
    + right. apply elem_of_middle. by right.
  - intros r off [Heq|Hin]%elem_of_middle.
    + by destruct (Hi' r off).
    + apply Hstore, elem_of_middle. by right.
Qed.

(** ** The invariant *)

(** Name the parts of the invariant of a pool [l1 ++ i :: l2]. *)
Ltac open_inv HI :=
  destruct HI as
    [Hmax Hbm Harr Hnd Hbits Hret (glog & Hlen & Hperm & Hslots & Hstore) Hheap];
  unfold bit_set, cur_length, slots in *;
  simpl in *; rewrite ?omap_middle in *; simpl in *.

(** Split the invariant of a pool [l1 ++ i' :: l2] into its parts and
    close those that are hypotheses. *)
Ltac close_inv :=
  split; unfold bit_set, cur_length, slots; simpl;
  rewrite ?omap_middle; simpl; try done.

(** An invocation of the pool other than the one that moved. *)
Ltac others := apply elem_of_middle; by right.

(** The reserved slots stay as they are when the invocation moves to
    [i'], neither end of the move being the array store. *)
Ltac same_slots glog Hslots Hstore i' :=
  exists glog;
  destruct (slots_frame _ _ _ _ _ i' Hslots Hstore) as [? ?];
  [done..|split_and!; done].

Section invariant.

Context (max_regions : N).

Lemma Inv_won_lt (c : config) (r : uint) :
  Inv max_regions c → r ∈ omap won (pool c) → r < max_regions.
Proof.
  intros HI Hr. apply (inv_bits _ _ HI) in Hr.
  apply at_true_lt in Hr. unfold BitMap.size in Hr.
  rewrite (inv_bitmap_size _ _ HI) in Hr. lia.
Qed.

(** At most [max_regions] claims are won: the winners are distinct
    regions below [max_regions]. *)
Lemma Inv_won_length (c : config) :
  Inv max_regions c → N.of_nat (length (omap won (pool c))) ≤ max_regions.
Proof.
  intros HI. apply nodup_bounded_length; [apply (inv_won_nodup _ _ HI)|].
  intros x. by apply Inv_won_lt.
Qed.

Lemma Inv_init (this : G1EvacFailureRegions) :
  idle max_regions this → Inv max_regions (init this).
Proof.
  destruct this as [bm arr len]. intros (Hmax & Hbm & Harr & Hlen). simpl in *. subst.
  split; simpl; try done.
  - by rewrite length_replicate.
  - constructor.
  - intros r. unfold bit_set. simpl. rewrite at_replicate_false. split; [done|].
    intros H. by apply elem_of_nil in H.
  - intros r b H. by apply elem_of_nil in H.
  - exists []. unfold cur_length. simpl. repeat split; try done.
    intros r off H. by apply elem_of_nil in H.
Qed.

Lemma Inv_invoke (w : World) (p : list invocation) (r : uint) :
  Inv max_regions (mkConfig w p) → Inv max_regions (mkConfig w (p ++ [AtSetBit r])).
Proof.
  intros [Hmax Hbm Harr Hnd Hbits Hret (glog & Hlen & Hperm & Hslots & Hstore) Hheap].
  simpl in *.
  split; simpl; rewrite ?omap_app, ?app_nil_r; try done.
  - intros r0 b [H|H]%elem_of_app; [by eapply Hret|].
    apply list_elem_of_singleton in H. done.
  - exists glog. repeat split; try done.
    + intros i r0 Hi. destruct (Hslots i r0 Hi); [by left|right].
      apply elem_of_app. by left.
    + intros r0 off [H|H]%elem_of_app; [by apply Hstore|].
      apply list_elem_of_singleton in H. done.
Qed.

(** The bit claim finds the bit set: the invocation returns false. *)
Lemma Inv_set_bit_lost w l1 l2 r :
  Inv max_regions (mkConfig w (l1 ++ AtSetBit r :: l2)) →
  bit_set w r = true →
  Inv max_regions (mkConfig w (l1 ++ Returned r false :: l2)).
Proof.
  intros HI Hbit. open_inv HI. close_inv.
  - intros r0 b [[= -> ->]|H]%elem_of_middle; [done|]. eapply Hret. others.
  - same_slots glog Hslots Hstore (Returned r false).
Qed.

(** The bit claim finds the bit clear and sets it: the invocation has won. *)
Lemma Inv_set_bit_won bm arr len h l1 l2 r :
  Inv max_regions (mkConfig (mkWorld (mkTracker bm arr len) h) (l1 ++ AtSetBit r :: l2)) →
  r < BitMap.size bm →
  BitMap.at_ bm r = false →
  Inv max_regions
      (mkConfig (mkWorld (mkTracker (<[N.to_nat r := true]> bm) arr len) h)
                (l1 ++ AtFetchAdd r :: l2)).
Proof.
  intros HI Hr Hbit. open_inv HI.
  assert (Hnew : r ∉ omap won l1 ++ omap won l2).
  { intros H. apply Hbits in H. congruence. }
  assert (Hbits' : ∀ r0, BitMap.at_ (<[N.to_nat r := true]> bm) r0 = true
                         ↔ r0 ∈ omap won l1 ++ r :: omap won l2).
  { intros r0. rewrite elem_of_app, elem_of_cons. destruct (decide (r0 = r)) as [->|Hne].
    - rewrite at_insert_eq by done. tauto.
    - rewrite at_insert_ne by done. rewrite Hbits, elem_of_app. tauto. }
  close_inv.
  - by rewrite length_insert.
  - apply NoDup_app in Hnd as (Hnd1 & Hdisj & Hnd2).
    rewrite elem_of_app in Hnew.
    apply NoDup_app. split_and!; [done| |].
    + intros x Hx [->|Hx2]%elem_of_cons; [tauto|]. by eapply Hdisj.
    + apply NoDup_cons. tauto.
  - intros r0 b [?|H]%elem_of_middle; [done|].
    apply Hbits'. assert (Hin : r0 ∈ omap won l1 ++ omap won l2).
    { apply Hbits. eapply Hret. others. }
    rewrite elem_of_app, elem_of_cons. rewrite elem_of_app in Hin. tauto.
  - same_slots glog Hslots Hstore (AtFetchAdd r).
Qed.

(** The counter increment reserves slot [len]; the counter does not
    wrap, because the reserved regions are distinct regions whose bit
    is set. *)
Lemma Inv_fetch_add bm arr len h l1 l2 r :
  Inv max_regions (mkConfig (mkWorld (mkTracker bm arr len) h) (l1 ++ AtFetchAdd r :: l2)) →
  len < max_regions
  ∧ Inv max_regions
        (mkConfig (mkWorld (mkTracker bm arr (len + 1)) h) (l1 ++ AtStore r len :: l2)).
Proof.
  intros HI. pose proof (Inv_won_length _ HI) as Hwon. open_inv HI.
  assert (Hroom : len < max_regions).
  { pose proof (sublist_length _ _ (reserved_sublist_won (l1 ++ AtStore r len :: l2))) as Hsub.
    rewrite !omap_middle in Hsub. simpl in Hsub.
    apply Permutation_length in Hperm.
    rewrite !length_app in *. simpl in *. lia. }
  split; [done|]. close_inv.
  - intros r0 b [?|H]%elem_of_middle; [done|]. eapply Hret. others.
  - exists (glog ++ [r]). split_and!.
    + rewrite length_app. simpl. lia.
    + rewrite <- Permutation_cons_append, <- Permutation_middle. by rewrite Hperm.
    + intros i r0 Hi. apply lookup_app_Some in Hi as [Hi|[Hge Hi]].
      * destruct (Hslots i r0 Hi) as [|[?|?]%elem_of_middle]; [by left|done|].
        right. others.
      * apply list_lookup_singleton_Some in Hi as [Hi <-].
        right. apply elem_of_middle. left. f_equal. lia.
    + intros r0 off [[= -> ->]|H]%elem_of_middle.
      * rewrite lookup_app_r by lia.
        by replace (N.to_nat len - length glog)%nat with 0%nat by lia.
      * apply lookup_app_l_Some, Hstore. others.
Qed.

(** The array store fills the slot its invocation reserved, which is
    inside the array. *)
Lemma Inv_store bm arr len h l1 l2 r off :
  Inv max_regions (mkConfig (mkWorld (mkTracker bm arr len) h) (l1 ++ AtStore r off :: l2)) →
  off < N.of_nat (length arr)
  ∧ Inv max_regions
        (mkConfig (mkWorld (mkTracker bm (<[N.to_nat off := r]> arr) len) h)
                  (l1 ++ AtNotify r :: l2)).
Proof.
  intros HI. pose proof (Inv_won_length _ HI) as Hwon.
  pose proof (sublist_length _ _ (reserved_sublist_won (l1 ++ AtStore r off :: l2))) as Hsub.
  open_inv HI.
  assert (Hmine : glog !! N.to_nat off = Some r).
  { apply Hstore, elem_of_middle. by left. }
  assert (Hroom : off < N.of_nat (length arr)).
  { apply lookup_lt_Some in Hmine. apply Permutation_length in Hperm. lia. }
  split; [done|]. close_inv.
  - by rewrite length_insert.
  - intros r0 b [?|H]%elem_of_middle; [done|]. eapply Hret. others.
  - exists glog. split_and!; try done.
    + intros i r0 Hi. destruct (decide (i = N.to_nat off)) as [->|Hne].
      * left. rewrite Hmine in Hi. injection Hi as <-.
        apply list_lookup_insert_eq. lia.
      * rewrite list_lookup_insert_ne by done.
        destruct (Hslots i r0 Hi) as [|[[= -> <-]|?]%elem_of_middle]; [by left|lia|].
        right. others.
    + intros r0 off0 [?|H]%elem_of_middle; [done|]. apply Hstore. others.
Qed.

(** The notification, then the return of true. *)
Lemma Inv_notify t h l1 l2 r :
  Inv max_regions (mkConfig (mkWorld t h) (l1 ++ AtNotify r :: l2)) →
  Inv max_regions
      (mkConfig (mkWorld t (note_evacuation_failure r h)) (l1 ++ Returned r true :: l2)).
Proof.
  intros HI. unfold note_evacuation_failure. open_inv HI. close_inv.
  - intros r0 b [[= -> ->]|H]%elem_of_middle.
    + apply Hbits. rewrite elem_of_app, elem_of_cons. tauto.
    + eapply Hret. others.
  - same_slots glog Hslots Hstore (Returned r true).
  - rewrite <- Permutation_cons_append, <- Permutation_middle. by rewrite Hheap.
Qed.

(** One statement of one invocation keeps the invariant; the only
    fault it can raise is the bitmap's, on a region index out of
    range. *)
Lemma Inv_step w l1 l2 i :
  Inv max_regions (mkConfig w (l1 ++ i :: l2)) →
  match step i w with
  | Ok (i', w') => Inv max_regions (mkConfig w' (l1 ++ i' :: l2))
  | Fault f => f = BitIndexOutOfRange ∧ max_regions ≤ region_of i
  end.
Proof.
  intros HI. destruct w as [[bm arr len] h].
  destruct i as [r|r|r off|r|r b]; simpl.
  - unfold BitMap.par_set_bit.
    pose proof (inv_bitmap_size _ _ HI) as Hbm. simpl in Hbm.
    destruct (r <? BitMap.size bm) eqn:Hr.
    + apply N.ltb_lt in Hr. destruct (BitMap.at_ bm r) eqn:Hbit; simpl.
      * by apply Inv_set_bit_lost.
      * by apply Inv_set_bit_won.
    + apply N.ltb_ge in Hr. unfold BitMap.size in Hr. simpl. split; [done|lia].
  - destruct (Inv_fetch_add _ _ _ _ _ _ _ HI) as [Hroom HI'].
    pose proof (inv_max _ _ HI).
    unfold fetch_then_add. rewrite uint_wrap_small by lia. done.
  - destruct (Inv_store _ _ _ _ _ _ _ _ HI) as [Hroom HI'].
    unfold array_store. apply N.ltb_lt in Hroom. rewrite Hroom. done.
  - by apply Inv_notify.
  - done.
Qed.

Lemma Inv_exec a c :
  Inv max_regions c →
  match exec a c with
  | Ok c' => Inv max_regions c'
  | Fault f => f = BitIndexOutOfRange ∧ ∃ i, i ∈ pool c ∧ max_regions ≤ region_of i
  end.
Proof.
  intros HI. destruct c as [w p]. destruct a as [r|tid]; simpl.
  - by apply Inv_invoke.
  - destruct (p !! tid) as [i|] eqn:Hi; [|done].
    destruct (pool_at p tid i Hi) as (l1 & l2 & Hp & Hins).
    pose proof (Inv_step w l1 l2 i) as Hstep. rewrite <- Hp in Hstep.
    specialize (Hstep HI).
    destruct (step i w) as [[i' w']|f]; simpl.
    + rewrite Hins. apply Hstep.
    + destruct Hstep as [-> Hge]. split; [done|]. exists i. split; [|done].
      by eapply list_elem_of_lookup_2.
Qed.

Lemma Inv_run sched c c' :
  Inv max_regions c → run sched c = Ok c' → Inv max_regions c'.
Proof.
  revert c. induction sched as [|a sched IH]; simpl; intros c HI Hrun.
  - by injection Hrun as <-.
  - pose proof (Inv_exec a c HI) as Hexec.
    destruct (exec a c) as [c1|f]; [|done]. simpl in Hrun. by eapply IH.
Qed.

Lemma Inv_reachable c : reachable max_regions c → Inv max_regions c.
Proof.
  intros (this & sched & Hidle & Hrun).
  eapply Inv_run; [|done]. by apply Inv_init.
Qed.

End invariant.

(** Schedules compose. *)
Lemma run_app sched1 sched2 c :
  run (sched1 ++ sched2) c =
    match run sched1 c with
    | Ok c1 => run sched2 c1
    | Fault f => Fault f
    end.
Proof.
  revert c. induction sched1 as [|a sched1 IH]; simpl; intros c; [done|].
  destruct (exec a c) as [c1|f]; simpl; [apply IH|done].
Qed.

Lemma reachable_run max_regions sched c c' :
  reachable max_regions c → run sched c = Ok c' → reachable max_regions c'.
Proof.
  intros (this & sched0 & Hidle & Hrun0) Hrun.
  exists this, (sched0 ++ sched). split; [done|].
  by rewrite run_app, Hrun0.
Qed.

Example scenario_runs : run scenario_schedule (init scenario_idle) = Ok scenario_sealed.
Proof. reflexivity. Qed.

Example scenario_racing_runs :
  run scenario_racing_schedule (init scenario_idle) = Ok scenario_racing.
Proof. reflexivity. Qed.

(** ** [record] on reachable states *)

(** A region whose bit is clear still has a free slot: a claim and an
    increment by one more invocation would keep the invariant. *)
Lemma Inv_room max_regions c r :
  Inv max_regions c → r < max_regions → bit_set (shared c) r = false →
  cur_length (shared c) < N.of_nat (length (slots (shared c))).
Proof.
  destruct c as [[[bm arr len] h] p]. unfold bit_set, cur_length, slots. simpl.
  intros HI Hr Hbit.
  pose proof (inv_bitmap_size _ _ HI) as Hbm.
  pose proof (inv_array_size _ _ HI) as Harr. unfold slots in Harr. simpl in *.
  apply (Inv_invoke _ _ _ r) in HI.
  apply Inv_set_bit_won in HI; [|unfold BitMap.size; lia|done].
  apply Inv_fetch_add in HI as [Hroom _]. lia.
Qed.

Lemma record_reachable max_regions c r :
  reachable max_regions c → r < max_regions →
  ∃ w', record r (shared c) = Ok (negb (bit_set (shared c) r), w').
Proof.
  intros HI%Inv_reachable Hr.
  destruct (bit_set (shared c) r) eqn:Hbit; simpl.
  - exists (shared c). by apply record_already_set.
  - eexists. apply record_claims; [|done|by eapply Inv_room].
    unfold BitMap.size. rewrite (inv_bitmap_size _ _ HI). lia.
Qed.

Lemma record_sets_bit r w b w' :
  record r w = Ok (b, w') → bit_set w' r = true.
Proof.
  intros Hrec. destruct (record_inv _ _ _ _ Hrec) as (Hr & -> & Hroom).
  destruct (bit_set w r) eqn:Hbit; simpl in *.
  - rewrite record_already_set in Hrec by done. by injection Hrec as <-.
  - rewrite record_claims in Hrec by auto. injection Hrec as <-.
    unfold bit_set. simpl. by apply at_insert_eq.
Qed.

(** C1: for a region id in [0, max_regions) and a state reachable in a
    Recording phase, [record] returns, and it returns true exactly when
    the region's presence bit was clear just before the call; it returns
    false when the bit was already set.  When it returns true the bit
    is set afterwards: the call made the false-to-true transition. *)
Theorem record_true_iff_bit_clear max_regions c r :
  reachable max_regions c → r < max_regions →
  ∃ b w', record r (shared c) = Ok (b, w')
        ∧ (b = true ↔ bit_set (shared c) r = false)
        ∧ (bit_set (shared c) r = true → b = false)
        ∧ (b = true → bit_set w' r = true).
Proof.
  intros Hreach Hr.
  destruct (record_reachable _ _ _ Hreach Hr) as [w' Hrec].
  exists (negb (bit_set (shared c) r)), w'. split; [done|].
  pose proof (record_sets_bit _ _ _ _ Hrec) as Hset.
  destruct (bit_set (shared c) r); simpl; split_and!; try done.
  all: split; done.
Qed.

Lemma record_true_iff_bit_clear_witness :
  ∃ b w', record 1 (shared scenario_racing) = Ok (b, w')
        ∧ (b = true ↔ bit_set (shared scenario_racing) 1 = false)
        ∧ (bit_set (shared scenario_racing) 1 = true → b = false)
        ∧ (b = true → bit_set w' 1 = true).
Proof.
  apply (record_true_iff_bit_clear 4 scenario_racing 1).
  - exists scenario_idle, scenario_racing_schedule.
    split; [repeat split; reflexivity | reflexivity].
  - reflexivity.
Defined.

(** C4: when the presence bit of the region is already set, [record]
    returns false and the state after the call is the state before it:
    same bitmap, same length counter, same array slots, no
    notification. *)
Theorem record_set_bit_no_effect r w :
  bit_set w r = true →
  ∃ w', record r w = Ok (false, w')
      ∧ cur_length w' = cur_length w
      ∧ slots w' = slots w
      ∧ heap w' = heap w
      ∧ w' = w.
Proof.
  intros Hbit. exists w. split; [|done].
  destruct w as [[bm arr len] h]. unfold bit_set in Hbit. simpl in Hbit.
  pose proof (at_true_lt _ _ Hbit) as Hr%N.ltb_lt.
  unfold record, BitMap.par_set_bit. simpl. by rewrite Hr, Hbit.
Qed.

Lemma record_set_bit_no_effect_witness :
  ∃ w', record 2 (shared scenario_sealed) = Ok (false, w')
      ∧ cur_length w' = cur_length (shared scenario_sealed)
      ∧ slots w' = slots (shared scenario_sealed)
      ∧ heap w' = heap (shared scenario_sealed)
      ∧ w' = shared scenario_sealed.
Proof. apply (record_set_bit_no_effect 2 (shared scenario_sealed)). reflexivity. Defined.

(** C10: on a reachable state and a region id in range, a second
    [record] of the same region right after the first returns false and
    leaves the state the first call produced (bitmap, array, length
    counter, notifications) as it is: twice is the same as once. *)
Theorem record_twice_same_as_once max_regions c r :
  reachable max_regions c → r < max_regions →
  ∃ b w1, record r (shared c) = Ok (b, w1)
        ∧ record r w1 = Ok (false, w1)
        ∧ (let* (_, w2) := record r (shared c) in
           let* (b2, w3) := record r w2 in Ok (b2, w3)) = Ok (false, w1).
Proof.
  intros Hreach Hr.
  destruct (record_reachable _ _ _ Hreach Hr) as [w1 Hrec].
  pose proof (record_already_set r w1 (record_sets_bit _ _ _ _ Hrec)) as Hagain.
  exists (negb (bit_set (shared c) r)), w1. split_and!; [done..|].
  rewrite Hrec. simpl. by rewrite Hagain.
Qed.

Lemma record_twice_same_as_once_witness :
  ∃ b w1, record 3 (shared scenario_sealed) = Ok (b, w1)
        ∧ record 3 w1 = Ok (false, w1)
        ∧ (let* (_, w2) := record 3 (shared scenario_sealed) in
           let* (b2, w3) := record 3 w2 in Ok (b2, w3)) = Ok (false, w1).
Proof.
  apply (record_twice_same_as_once 4 scenario_sealed 3).
  - exists scenario_idle, scenario_schedule.
    split; [repeat split; reflexivity | reflexivity].
  - reflexivity.
Defined.

(** ** Notifications *)

Lemma filter_eq_absent (l : list N) (r : N) :
  r ∉ l → length (filter (λ x, x = r) l) = 0%nat.
Proof.
  induction l as [|a l IH]; [done|]. intros [Hne Hnot]%not_elem_of_cons.
  rewrite filter_cons_False by congruence. auto.
Qed.

Lemma filter_eq_nodup (l : list N) (r : N) :
  NoDup l → r ∈ l → length (filter (λ x, x = r) l) = 1%nat.
Proof.
  induction 1 as [|a l Hnotin Hnd IH]; intros Hin.
  - by apply elem_of_nil in Hin.
  - destruct (decide (a = r)) as [->|Hne].
    + rewrite filter_cons_True by done. simpl. by rewrite filter_eq_absent.
    + rewrite filter_cons_False by done. apply IH.
      apply elem_of_cons in Hin as [?|?]; [congruence|done].
Qed.

Lemma notified_sublist_won (p : list invocation) :
  omap notified p `sublist_of` omap won p.
Proof.
  induction p as [|i p IH]; [done|].
  destruct i as [r|r|r off|r|r []]; simpl; try done;
    by (apply sublist_skip || apply sublist_cons).
Qed.

Lemma elem_of_omap_notified (p : list invocation) (r : uint) :
  r ∈ omap notified p ↔ Returned r true ∈ p.
Proof.
  rewrite list_elem_of_omap. split.
  - intros (i & Hi & Hn). by destruct i as [| | | |? []]; simplify_eq/=.
  - intros H. by exists (Returned r true).
Qed.

Lemma Inv_notifications max_regions c r :
  Inv max_regions c →
  notifications_to r (heap (shared c)) =
    if decide (Returned r true ∈ pool c) then 1%nat else 0%nat.
Proof.
  intros HI. unfold notifications_to.
  pose proof (inv_heap _ _ HI) as Hheap.
  assert (Hnd : NoDup (heap (shared c))).
  { rewrite Hheap. eapply sublist_NoDup; [|apply notified_sublist_won].
    apply (inv_won_nodup _ _ HI). }
  destruct (decide _) as [Hin|Hnot].
  - apply filter_eq_nodup; [done|]. rewrite Hheap. by apply elem_of_omap_notified.
  - apply filter_eq_absent. rewrite Hheap. by rewrite elem_of_omap_notified.
Qed.

(** C3: on a reachable state, a [record] that returns true has stored
    the region at the slot whose index is the value the length counter
    had before its increment, has incremented the counter by one, and
    has issued one notification for the region (after the store, before
    it returns); a [record] that returns false has issued none.  So at
    every point of a Recording phase a region has received exactly one
    notification if an invocation for it has returned true, and none
    otherwise. *)
Theorem record_win_appends_then_notifies max_regions c :
  reachable max_regions c →
  (∀ r w', record r (shared c) = Ok (true, w') →
     slots w' = <[N.to_nat (cur_length (shared c)) := r]> (slots (shared c))
     ∧ slots w' !! N.to_nat (cur_length (shared c)) = Some r
     ∧ cur_length w' = cur_length (shared c) + 1
     ∧ heap w' = heap (shared c) ++ [r])
  ∧ (∀ r w', record r (shared c) = Ok (false, w') → heap w' = heap (shared c))
  ∧ (∀ i, i ∈ pool c →
       match step i (shared c) with
       | Ok (i', w') =>
           heap w' = if decide (i = AtNotify (region_of i))
                     then heap (shared c) ++ [region_of i] else heap (shared c)
       | Fault _ => True
       end)
  ∧ (∀ r, notifications_to r (heap (shared c)) =
          if decide (Returned r true ∈ pool c) then 1%nat else 0%nat).
Proof.
  intros HI%Inv_reachable. split_and!.
  - intros r w' Hrec.
    destruct (record_inv _ _ _ _ Hrec) as (Hr & Hb & Hroom).
    specialize (Hroom eq_refl).
    assert (Hbit : bit_set (shared c) r = false) by by destruct (bit_set _ _).
    rewrite record_claims in Hrec by done. injection Hrec as <-.
    unfold slots, cur_length in *. simpl. split_and!; try done.
    + apply list_lookup_insert_eq. lia.
    + apply uint_wrap_small.
      pose proof (inv_max _ _ HI). pose proof (inv_array_size _ _ HI) as Harr.
      unfold slots in Harr. lia.
  - intros r w' Hrec.
    destruct (record_inv _ _ _ _ Hrec) as (Hr & Hb & _).
    assert (Hbit : bit_set (shared c) r = true) by by destruct (bit_set _ _).
    rewrite record_already_set in Hrec by done. by injection Hrec as <-.
  - intros i Hi. destruct (shared c) as [[bm arr len] h].
    destruct i as [r|r|r off|r|r b]; simpl; try done.
    + unfold BitMap.par_set_bit. destruct (_ <? _); [|done]. by destruct (BitMap.at_ _ _).
    + by destruct (array_store _ _ _).
    + by rewrite decide_True.
  - intros r. by apply (Inv_notifications max_regions).
Qed.

Lemma record_win_appends_then_notifies_witness :
  (∀ r w', record r (shared scenario_racing) = Ok (true, w') →
     slots w' = <[N.to_nat (cur_length (shared scenario_racing)) := r]>
                  (slots (shared scenario_racing))
     ∧ slots w' !! N.to_nat (cur_length (shared scenario_racing)) = Some r
     ∧ cur_length w' = cur_length (shared scenario_racing) + 1
     ∧ heap w' = heap (shared scenario_racing) ++ [r])
  ∧ (∀ r w', record r (shared scenario_racing) = Ok (false, w') →
       heap w' = heap (shared scenario_racing))
  ∧ (∀ i, i ∈ pool scenario_racing →
       match step i (shared scenario_racing) with
       | Ok (i', w') =>
           heap w' = if decide (i = AtNotify (region_of i))
                     then heap (shared scenario_racing) ++ [region_of i]
                     else heap (shared scenario_racing)
       | Fault _ => True
       end)
  ∧ (∀ r, notifications_to r (heap (shared scenario_racing)) =
          if decide (Returned r true ∈ pool scenario_racing) then 1%nat else 0%nat).
Proof.
  apply (record_win_appends_then_notifies 4 scenario_racing).
  exists scenario_idle, scenario_racing_schedule.
  split; [repeat split; reflexivity | reflexivity].
Defined.

(** ** Presence bits only get set *)

Lemma step_keeps_bits i w i' w' r :
  step i w = Ok (i', w') → bit_set w r = true → bit_set w' r = true.
Proof.
  destruct w as [[bm arr len] h]. unfold bit_set.
  destruct i as [r0|r0|r0 off|r0|r0 b]; simpl.
  - unfold BitMap.par_set_bit. destruct (r0 <? BitMap.size bm) eqn:Hr0; [|done].
    apply N.ltb_lt in Hr0.
    destruct (BitMap.at_ bm r0) eqn:Hbit; simpl; intros [= <- <-]; simpl; [done|].
    intros Hr. destruct (decide (r0 = r)) as [->|Hne]; [congruence|].
    by rewrite at_insert_ne.
  - by intros [= <- <-].
  - destruct (array_store arr off r0); simpl; [|done]. by intros [= <- <-].
  - by intros [= <- <-].
  - by intros [= <- <-].
Qed.

Lemma exec_keeps_bits a c c' r :
  exec a c = Ok c' → bit_set (shared c) r = true → bit_set (shared c') r = true.
Proof.
  destruct a as [r0|tid]; simpl.
  - by intros [= <-].
  - destruct (pool c !! tid) as [i|]; [|by intros [= <-]].
    destruct (step i (shared c)) as [[i' w']|f] eqn:Hstep; simpl; [|done].
    intros [= <-]. simpl. by eapply step_keeps_bits.
Qed.

Lemma run_keeps_bits sched c c' r :
  run sched c = Ok c' → bit_set (shared c) r = true → bit_set (shared c') r = true.
Proof.
  revert c. induction sched as [|a sched IH]; simpl; intros c.
  - by intros [= <-].
  - destruct (exec a c) as [c1|f] eqn:Hexec; simpl; [|done].
    intros Hrun Hbit. eapply IH; [done|]. by eapply exec_keeps_bits.
Qed.

Lemma record_keeps_bits r w b w' r' :
  record r w = Ok (b, w') → bit_set w r' = true → bit_set w' r' = true.
Proof.
  intros Hrec Hbit. destruct (record_inv _ _ _ _ Hrec) as (Hr & -> & Hroom).
  destruct (bit_set w r) eqn:Hset; simpl in *.
  - rewrite record_already_set in Hrec by done. by injection Hrec as <-.
  - rewrite record_claims in Hrec by auto. injection Hrec as <-.
    unfold bit_set in *. simpl.
    destruct (decide (r = r')) as [->|Hne]; [congruence|]. by rewrite at_insert_ne.
Qed.

Lemma bit_history_set r sched c :
  bit_set (shared c) r = true → rises (bit_history r sched c) = 0%nat.
Proof.
  revert c. induction sched as [|a sched IH]; intros c Hbit; [done|].
  cbn [bit_history]. destruct (exec a c) as [c1|f] eqn:Hexec; [|done].
  pose proof (exec_keeps_bits _ _ _ r Hexec Hbit) as Hbit1.
  specialize (IH c1 Hbit1).
  destruct sched as [|a' sched]; cbn [bit_history] in *;
    rewrite Hbit, Hbit1; simpl; rewrite ?Hbit1 in IH; exact IH.
Qed.

Lemma bit_history_rises r sched c : (rises (bit_history r sched c) ≤ 1)%nat.
Proof.
  revert c. induction sched as [|a sched IH]; intros c; [simpl; lia|].
  destruct (bit_set (shared c) r) eqn:Hbit.
  { rewrite bit_history_set by done. lia. }
  cbn [bit_history]. rewrite Hbit.
  destruct (exec a c) as [c1|f] eqn:Hexec; [|simpl; lia].
  destruct (bit_set (shared c1) r) eqn:Hbit1.
  - pose proof (bit_history_set r sched c1 Hbit1) as Hzero.
    destruct sched as [|a' sched]; cbn [bit_history] in *;
      rewrite Hbit1 in *; simpl in *; lia.
  - specialize (IH c1).
    destruct sched as [|a' sched]; cbn [bit_history] in *;
      rewrite Hbit1 in *; simpl in *; lia.
Qed.

(** C9: in a Recording phase, once an invocation of [record(r)] has
    returned, with true or with false, the presence bit of [r] is set;
    no statement of [record] clears a bit, so a bit that is set stays
    set through every later step of every invocation, and along any
    schedule a bit goes from false to true at most once.  [record] run
    on its own sets the bit of its region and keeps the others. *)
Theorem presence_bits_set_and_kept max_regions c sched c' :
  reachable max_regions c → run sched c = Ok c' →
  (∀ r b, Returned r b ∈ pool c → bit_set (shared c) r = true)
  ∧ (∀ r, bit_set (shared c) r = true → bit_set (shared c') r = true)
  ∧ (∀ r, (rises (bit_history r sched c) ≤ 1)%nat)
  ∧ (∀ r b w', record r (shared c) = Ok (b, w') →
       bit_set w' r = true
       ∧ ∀ r', bit_set (shared c) r' = true → bit_set w' r' = true).
Proof.
  intros Hreach Hrun. split_and!.
  - intros r b Hin. apply Inv_reachable in Hreach.
    by apply (inv_returned _ _ Hreach r b).
  - intros r Hbit. by eapply run_keeps_bits.
  - intros r. apply bit_history_rises.
  - intros r b w' Hrec. split.
    + by eapply record_sets_bit.
    + intros r' Hbit. by eapply record_keeps_bits.
Qed.

Lemma presence_bits_set_and_kept_witness :
  (∀ r b, Returned r b ∈ pool scenario_racing → bit_set (shared scenario_racing) r = true)
  ∧ (∀ r, bit_set (shared scenario_racing) r = true →
          bit_set (mkWorld (mkTracker [true; true; true; false] [9; 2; 1; 9] 3) [2; 1]) r
          = true)
  ∧ (∀ r, (rises (bit_history r [Run 1; Run 0; Run 0; Invoke 1; Run 3; Run 3; Run 3; Run 3]
                              scenario_racing) ≤ 1)%nat)
  ∧ (∀ r b w', record r (shared scenario_racing) = Ok (b, w') →
       bit_set w' r = true
       ∧ ∀ r', bit_set (shared scenario_racing) r' = true → bit_set w' r' = true).
Proof.
  apply (presence_bits_set_and_kept 4 scenario_racing
           [Run 1; Run 0; Run 0; Invoke 1; Run 3; Run 3; Run 3; Run 3]
           (mkConfig (mkWorld (mkTracker [true; true; true; false] [9; 2; 1; 9] 3) [2; 1])
                     [Returned 2 true; Returned 2 false; AtStore 0 0; Returned 1 true])).
  - exists scenario_idle, scenario_racing_schedule.
    split; [repeat split; reflexivity | reflexivity].
  - reflexivity.
Defined.

(** ** Exactly one winner *)

Lemma returned_calls_count (r : uint) (p : list invocation) :
  forallb is_returned (calls_of r p) = true →
  length (filter (λ x, x = r) (omap won p)) = returns_of r true p
  ∧ length (calls_of r p) = (returns_of r true p + returns_of r false p)%nat.
Proof.
  unfold calls_of, returns_of. induction p as [|i p IH]; [done|].
  rewrite (filter_cons (λ i, region_of i = r)).
  destruct (decide (region_of i = r)) as [Hi|Hi].
  - simpl. intros [Hret Hall]%andb_prop. destruct (IH Hall) as [IH1 IH2].
    destruct i as [| | | |r0 b]; try done. simpl in Hi. subst r0.
    destruct b; simpl.
    + rewrite (filter_cons (λ x, x = r)), decide_True by done.
      rewrite (filter_cons (λ i, i = Returned r true)), decide_True by done.
      rewrite (filter_cons (λ i, i = Returned r false)), decide_False by done.
      simpl. split; [f_equal; exact IH1 | lia].
    + rewrite (filter_cons (λ i, i = Returned r true)), decide_False by done.
      rewrite (filter_cons (λ i, i = Returned r false)), decide_True by done.
      simpl. split; [exact IH1 | lia].
  - intros Hall. destruct (IH Hall) as [IH1 IH2].
    rewrite (filter_cons (λ i, i = Returned r true)), decide_False
      by (intros ->; done).
    rewrite (filter_cons (λ i, i = Returned r false)), decide_False
      by (intros ->; done).
    split; [|done]. simpl.
    destruct (won i) as [r0|] eqn:Hwon; [|done].
    rewrite (filter_cons (λ x, x = r)), decide_False; [done|].
    intros ->. by destruct i as [| | | |? []]; simplify_eq/=.
Qed.

(** C2: when [record] has been invoked N >= 1 times with the same
    region id in one Recording phase, under any interleaving of the
    statements of all invocations, and those N invocations have
    returned, exactly one of them returned true and the other N - 1
    returned false. *)
Theorem exactly_one_record_wins max_regions c r (N : nat) :
  reachable max_regions c →
  length (calls_of r (pool c)) = N →
  (1 ≤ N)%nat →
  forallb is_returned (calls_of r (pool c)) = true →
  returns_of r true (pool c) = 1%nat ∧ returns_of r false (pool c) = (N - 1)%nat.
Proof.
  intros HI%Inv_reachable HN Hpos Hall.
  destruct (returned_calls_count r (pool c) Hall) as [Hwon Htotal].
  assert (Hin : r ∈ omap won (pool c)).
  { destruct (calls_of r (pool c)) as [|i l] eqn:Hcalls; [simpl in HN; lia|].
    assert (Hi : i ∈ calls_of r (pool c)) by (rewrite Hcalls; apply elem_of_cons; by left).
    apply list_elem_of_filter in Hi as [Hreg Hi].
    simpl in Hall. apply andb_prop in Hall as [Hret _].
    destruct i as [| | | |r0 b]; try done. simpl in Hreg. subst r0.
    apply (inv_bits _ _ HI). by apply (inv_returned _ _ HI r b). }
  rewrite (filter_eq_nodup _ _ (inv_won_nodup _ _ HI) Hin) in Hwon.
  split; [done|]. lia.
Qed.

Lemma exactly_one_record_wins_witness :
  returns_of 2 true (pool scenario_sealed) = 1%nat
  ∧ returns_of 2 false (pool scenario_sealed) = (2 - 1)%nat.
Proof.
  apply (exactly_one_record_wins 4 scenario_sealed 2 2).
  - exists scenario_idle, scenario_schedule.
    split; [repeat split; reflexivity | reflexivity].
  - reflexivity.
  - lia.
  - reflexivity.
Defined.

(** ** The failed-region sequence once every invocation has returned *)

Lemma all_returned_omap (p : list invocation) :
  forallb is_returned p = true →
  omap won p = omap notified p ∧ omap reserved p = omap notified p.
Proof.
  induction p as [|i p IH]; [done|]. simpl. intros [Hi Hp]%andb_prop.
  destruct (IH Hp) as [IH1 IH2].
  destruct i as [| | | |r []]; try done; csimpl; split; congruence.
Qed.

Lemma all_returned_no_store (p : list invocation) r off :
  forallb is_returned p = true → AtStore r off ∉ p.
Proof.
  induction p as [|i p IH]; simpl.
  - intros _ H. by apply elem_of_nil in H.
  - intros [Hi Hp]%andb_prop [<-|H]%elem_of_cons; [done|]. by apply IH.
Qed.

Lemma sealed_log max_regions c :
  sealed max_regions c →
  NoDup (omap notified (pool c))
  ∧ failed_regions (shared c) ≡ₚ omap notified (pool c)
  ∧ N.of_nat (length (omap notified (pool c))) = cur_length (shared c).
Proof.
  intros [HI%Inv_reachable Hall].
  destruct (all_returned_omap _ Hall) as [Hwon Hres].
  pose proof (inv_won_nodup _ _ HI) as Hnd. rewrite Hwon in Hnd.
  destruct (inv_log _ _ HI) as (glog & Hlen & Hperm & Hslots & _).
  rewrite Hres in Hperm.
  assert (Htake : failed_regions (shared c) = glog).
  { unfold failed_regions. rewrite <- Hlen, Nat2N.id.
    apply lookup_agree_take. intros i x Hi.
    destruct (Hslots i x Hi) as [|Hstore]; [done|].
    by apply all_returned_no_store in Hstore. }
  split_and!; [done|by rewrite Htake|].
  rewrite <- Hlen. by rewrite Hperm.
Qed.

(** C5: once the [record] calls of a Recording phase have all
    returned, the failed-region sequence (the array entries at indices
    [0, length)) holds no region id twice. *)
Theorem failed_regions_no_duplicates max_regions c :
  sealed max_regions c → NoDup (failed_regions (shared c)).
Proof.
  intros Hsealed. destruct (sealed_log _ _ Hsealed) as (Hnd & Hperm & _).
  by rewrite Hperm.
Qed.

Lemma failed_regions_no_duplicates_witness :
  NoDup (failed_regions (shared scenario_sealed)).
Proof.
  apply (failed_regions_no_duplicates 4 scenario_sealed). split.
  - exists scenario_idle, scenario_schedule.
    split; [repeat split; reflexivity | reflexivity].
  - reflexivity.
Defined.

(** C6: once the [record] calls of a Recording phase have all
    returned, with K the number of distinct region ids for which an
    invocation returned true, the length counter is K, the indices
    [0, K) are all inside the array, the entries at those indices are
    the K regions that were recorded, each at one index, and every
    index below K holds such a region (no gap). *)
Theorem failed_regions_dense max_regions c (K : nat) :
  sealed max_regions c →
  K = length (remove_dups (omap notified (pool c))) →
  cur_length (shared c) = N.of_nat K
  ∧ length (failed_regions (shared c)) = K
  ∧ failed_regions (shared c) ≡ₚ remove_dups (omap notified (pool c))
  ∧ ∀ i, (i < K)%nat → ∃ r, slots (shared c) !! i = Some r ∧ Returned r true ∈ pool c.
Proof.
  intros Hsealed ->. destruct (sealed_log _ _ Hsealed) as (Hnd & Hperm & Hlen).
  assert (Hdups : remove_dups (omap notified (pool c)) ≡ₚ omap notified (pool c)).
  { apply NoDup_Permutation; [apply NoDup_remove_dups|done|].
    intros x. apply elem_of_remove_dups. }
  assert (Hfl : length (failed_regions (shared c))
                = length (remove_dups (omap notified (pool c)))).
  { by rewrite Hperm, Hdups. }
  split_and!.
  - rewrite <- Hlen. by rewrite Hdups.
  - done.
  - by rewrite Hdups.
  - intros i Hi. rewrite <- Hfl in Hi.
    apply lookup_lt_is_Some_2 in Hi as [r Hr]. exists r. split.
    + unfold failed_regions in Hr. by apply lookup_take_Some in Hr as [? _].
    + apply elem_of_omap_notified. rewrite <- Hperm. by eapply list_elem_of_lookup_2.
Qed.

Lemma failed_regions_dense_witness :
  cur_length (shared scenario_sealed) = N.of_nat 2
  ∧ length (failed_regions (shared scenario_sealed)) = 2%nat
  ∧ failed_regions (shared scenario_sealed)
      ≡ₚ remove_dups (omap notified (pool scenario_sealed))
  ∧ ∀ i, (i < 2)%nat →
      ∃ r, slots (shared scenario_sealed) !! i = Some r
           ∧ Returned r true ∈ pool scenario_sealed.
Proof.
  apply (failed_regions_dense 4 scenario_sealed 2).
  - split.
    + exists scenario_idle, scenario_schedule.
      split; [repeat split; reflexivity | reflexivity].
    + reflexivity.
  - reflexivity.
Defined.

(** ** No fault on region ids in range *)

Lemma step_region_of i w i' w' :
  step i w = Ok (i', w') → region_of i' = region_of i.
Proof.
  destruct i as [r|r|r off|r|r b]; simpl.
  - destruct (BitMap.par_set_bit _ _) as [[[] bm]|]; simpl; [| |done]; by intros [= <- <-].
  - by intros [= <- <-].
  - destruct (array_store _ _ _); simpl; [|done]. by intros [= <- <-].
  - by intros [= <- <-].
  - by intros [= <- <-].
Qed.

Lemma exec_in_range max_regions a c :
  Inv max_regions c →
  in_range max_regions a →
  Forall (λ i, region_of i < max_regions) (pool c) →
  ∃ c', exec a c = Ok c'
      ∧ Inv max_regions c'
      ∧ Forall (λ i, region_of i < max_regions) (pool c').
Proof.
  intros HI Ha Hp. pose proof (Inv_exec max_regions a c HI) as Hexec.
  destruct (exec a c) as [c'|f] eqn:E.
  - exists c'. split_and!; [done..|].
    destruct a as [r|tid]; simpl in E.
    + injection E as <-. simpl. apply Forall_app. split; [done|].
      by apply Forall_singleton.
    + destruct (pool c !! tid) as [i|] eqn:Hi; [|by injection E as <-].
      destruct (step i (shared c)) as [[i' w']|] eqn:Hstep; simpl in E; [|done].
      injection E as <-. simpl. apply Forall_insert; [done|].
      rewrite (step_region_of _ _ _ _ Hstep).
      by eapply (Forall_lookup_1 _ _ _ _ Hp).
  - destruct Hexec as (_ & i & Hi & Hge).
    rewrite Forall_forall in Hp. specialize (Hp i Hi). simpl in Hp. lia.
Qed.

Lemma run_in_range max_regions sched c :
  Inv max_regions c →
  Forall (in_range max_regions) sched →
  Forall (λ i, region_of i < max_regions) (pool c) →
  ∃ c', run sched c = Ok c' ∧ Inv max_regions c'.
Proof.
  revert c. induction sched as [|a sched IH]; simpl; intros c HI Hs Hp.
  - by exists c.
  - apply Forall_cons in Hs as [Ha Hs].
    destruct (exec_in_range _ _ _ HI Ha Hp) as (c1 & -> & HI1 & Hp1). simpl.
    by apply IH.
Qed.

Lemma Inv_cur_length max_regions c :
  Inv max_regions c → cur_length (shared c) ≤ max_regions.
Proof.
  intros HI. pose proof (Inv_won_length _ _ HI) as Hwon.
  destruct (inv_log _ _ HI) as (glog & Hlen & Hperm & _).
  pose proof (sublist_length _ _ (reserved_sublist_won (pool c))) as Hsub.
  apply Permutation_length in Hperm. lia.
Qed.

Lemma Inv_store_in_bounds max_regions c r off :
  Inv max_regions c → AtStore r off ∈ pool c →
  off < N.of_nat (length (slots (shared c))).
Proof.
  intros HI Hin. apply list_elem_of_split in Hin as (l1 & l2 & Hp).
  destruct c as [[[bm arr len] h] p]. simpl in *. subst p.
  by apply Inv_store in HI as [Hroom _].
Qed.

(** C7: start from an idle tracker whose array has [max_regions]
    slots, and run any schedule of [record] invocations whose region
    ids are all below [max_regions].  At every point of the run no
    statement has faulted, the length counter is at most
    [max_regions], and every invocation that is about to store into the
    array holds an offset inside the array: the out-of-bounds store is
    never reached. *)
Theorem length_within_capacity max_regions this sched (n : nat) :
  idle max_regions this →
  Forall (in_range max_regions) sched →
  ∃ c, run (take n sched) (init this) = Ok c
     ∧ N.of_nat (length (slots (shared c))) = max_regions
     ∧ cur_length (shared c) ≤ max_regions
     ∧ ∀ r off, AtStore r off ∈ pool c → off < N.of_nat (length (slots (shared c))).
Proof.
  intros Hidle Hsched.
  destruct (run_in_range max_regions (take n sched) (init this)) as (c & Hrun & HI).
  - by apply Inv_init.
  - by apply Forall_take.
  - simpl. constructor.
  - exists c. split_and!; [done| | |].
    + rewrite (inv_array_size _ _ HI). lia.
    + by apply Inv_cur_length.
    + intros r off. by apply (Inv_store_in_bounds max_regions).
Qed.

Lemma length_within_capacity_witness :
  ∃ c, run (take 7 scenario_racing_schedule) (init scenario_idle) = Ok c
     ∧ N.of_nat (length (slots (shared c))) = 4
     ∧ cur_length (shared c) ≤ 4
     ∧ ∀ r off, AtStore r off ∈ pool c → off < N.of_nat (length (slots (shared c))).
Proof.
  apply (length_within_capacity 4 scenario_idle scenario_racing_schedule 7).
  - repeat split; reflexivity.
  - unfold scenario_racing_schedule. repeat constructor.
Defined.

(** ** Reset *)

(** C8: after [reset] of a sealed tracker, [count] is 0,
    [has_failed_regions] is false, the tracker is idle again for the
    same number of regions, and a [record] of any region id below
    [max_regions] returns true. *)
Theorem reset_reopens_every_region max_regions c :
  sealed max_regions c →
  count (reset (tracker (shared c))) = 0
  ∧ has_failed_regions (reset (tracker (shared c))) = false
  ∧ idle max_regions (reset (tracker (shared c)))
  ∧ ∀ r g1h, r < max_regions →
      ∃ w', record r (mkWorld (reset (tracker (shared c))) g1h) = Ok (true, w').
Proof.
  intros [HI%Inv_reachable _].
  pose proof (inv_max _ _ HI) as Hmax.
  pose proof (inv_bitmap_size _ _ HI) as Hbm.
  pose proof (inv_array_size _ _ HI) as Harr.
  destruct c as [[[bm arr len] h] p]. unfold slots in Harr. simpl in *.
  split_and!; try done.
  - unfold idle, reset, BitMap.clear. simpl. split_and!; try done. by rewrite Hbm.
  - intros r g1h Hr. eexists. apply record_claims; simpl.
    + unfold BitMap.size, BitMap.clear. rewrite length_replicate. lia.
    + unfold bit_set, BitMap.clear. simpl. apply at_replicate_false.
    + unfold cur_length, slots. simpl. lia.
Qed.

Lemma reset_reopens_every_region_witness :
  count (reset (tracker (shared scenario_sealed))) = 0
  ∧ has_failed_regions (reset (tracker (shared scenario_sealed))) = false
  ∧ idle 4 (reset (tracker (shared scenario_sealed)))
  ∧ ∀ r g1h, r < 4 →
      ∃ w', record r (mkWorld (reset (tracker (shared scenario_sealed))) g1h)
            = Ok (true, w').
Proof.
  apply (reset_reopens_every_region 4 scenario_sealed). split.
  - exists scenario_idle, scenario_schedule.
    split; [repeat split; reflexivity | reflexivity].
  - reflexivity.
Defined.

(** ** [record] run on its own is one schedule of the machine *)

Lemma exec_last w p i :
  exec (Run (length p)) (mkConfig w (p ++ [i])) =
    let* (i', w') := step i w in Ok (mkConfig w' (p ++ [i'])).
Proof.
  unfold exec. simpl. rewrite list_lookup_middle by done.
  destruct (step i w) as [[i' w']|f]; simpl; [|done].
  rewrite insert_app_r_alt by lia. by rewrite Nat.sub_diag.
Qed.

(** The schedule that starts one invocation and runs its four
    statements with nothing in between. *)
Lemma record_as_run r c b w' :
  record r (shared c) = Ok (b, w') →
  run (Invoke r :: replicate 4 (Run (length (pool c)))) c
  = Ok (mkConfig w' (pool c ++ [Returned r b])).
Proof.
  destruct c as [[[bm arr len] h] p]. unfold record. simpl replicate.
  cbn [run shared pool tracker heap _regions_failed_evacuation
       _evac_failure_regions _evac_failure_regions_cur_length].
  unfold exec at 1. cbn [bind shared pool].
  rewrite exec_last. cbn [step tracker heap _regions_failed_evacuation
       _evac_failure_regions _evac_failure_regions_cur_length].
  destruct (BitMap.par_set_bit r bm) as [[[] bm']|f]; cbn [bind]; [| |done].
  - rewrite exec_last. cbn [step bind fetch_then_add tracker heap
       _regions_failed_evacuation _evac_failure_regions
       _evac_failure_regions_cur_length].
    rewrite exec_last. cbn [step bind tracker heap _regions_failed_evacuation
       _evac_failure_regions _evac_failure_regions_cur_length].
    destruct (array_store arr len r) as [arr'|f]; cbn [bind]; [|done].
    rewrite exec_last. cbn [step bind tracker heap]. by intros [= <- <-].
  - repeat (rewrite exec_last; cbn [step bind]). by intros [= <- <-].
Qed.

Lemma record_all_as_run max_regions calls c bs w' :
  sealed max_regions c →
  record_all calls (shared c) = Ok (bs, w') →
  sealed max_regions (mkConfig w' (pool c ++ zip_with Returned calls bs))
  ∧ length bs = length calls.
Proof.
  revert c bs. induction calls as [|r calls IH]; intros c bs Hsealed; simpl.
  - intros [= <- <-]. simpl. rewrite app_nil_r. by destruct c.
  - destruct (record r (shared c)) as [[b w1]|f] eqn:Hrec; simpl; [|done].
    destruct (record_all calls w1) as [[bs' w2]|f] eqn:Hall; simpl; [|done].
    intros [= <- <-]. apply record_as_run in Hrec.
    destruct Hsealed as [Hreach Hret].
    destruct (IH (mkConfig w1 (pool c ++ [Returned r b])) bs') as [Hs Hlen].
    + split.
      * exact (reachable_run _ _ _ _ Hreach Hrec).
      * simpl. rewrite forallb_app, Hret. reflexivity.
    + done.
    + simpl in *. rewrite <- app_assoc in Hs. split; [done|by rewrite Hlen].
Qed.

(** Calls made one after the other from an idle tracker end in a
    sealed configuration of the machine: what holds of sealed
    configurations holds after any sequence of sequential calls. *)
Lemma record_all_sealed max_regions this calls bs w' :
  idle max_regions this →
  record_all calls (mkWorld this []) = Ok (bs, w') →
  sealed max_regions (mkConfig w' (zip_with Returned calls bs)).
Proof.
  intros Hidle Hall.
  apply (record_all_as_run max_regions calls (init this) bs w'); [|done].
  split; [|done]. by exists this, [].
Qed.

(** [record] and the uninterrupted schedule of one invocation agree
    on the value returned, on the state and on the fault. *)
Theorem record_is_uninterrupted_run r c :
  run (Invoke r :: replicate 4 (Run (length (pool c)))) c
  = match record r (shared c) with
    | Ok (b, w') => Ok (mkConfig w' (pool c ++ [Returned r b]))
    | Fault f => Fault f
    end.
Proof.
  destruct (record r (shared c)) as [[b w']|f] eqn:Hrec; [by apply record_as_run|].
  destruct c as [[[bm arr len] h] p]. unfold record in Hrec. simpl replicate.
  cbn [run shared pool tracker heap _regions_failed_evacuation
       _evac_failure_regions _evac_failure_regions_cur_length] in *.
  unfold exec at 1. cbn [bind shared pool].
  rewrite exec_last. cbn [step tracker heap _regions_failed_evacuation
       _evac_failure_regions _evac_failure_regions_cur_length].
  destruct (BitMap.par_set_bit r bm) as [[[] bm']|f']; cbn [bind] in *;
    [|done|by injection Hrec as <-].
  do 2 (rewrite exec_last; cbn [step bind fetch_then_add tracker heap
       _regions_failed_evacuation _evac_failure_regions
       _evac_failure_regions_cur_length] in * ).
  destruct (array_store arr len r) as [arr'|f']; cbn [bind] in *; [done|].
  by injection Hrec as <-.
Qed.

(** Whatever the schedule and the region ids it passes, a run from an
    idle tracker faults only in the bitmap, on a region index out of
    range: the array store is never out of bounds. *)
Theorem run_faults_only_out_of_range max_regions this sched f :
  idle max_regions this →
  run sched (init this) = Fault f →
  f = BitIndexOutOfRange.
Proof.
  intros HI%Inv_init. generalize dependent (init this).
  induction sched as [|a sched IH]; intros c HI Hrun; [done|].
  simpl in Hrun. pose proof (Inv_exec max_regions a c HI) as Hexec.
  destruct (exec a c) as [c1|f1]; simpl in Hrun.
  - by apply (IH c1).
  - injection Hrun as <-. by destruct Hexec.
Qed.

Lemma run_faults_only_out_of_range_witness :
  run [Invoke 2; Invoke 4; Run 0; Run 1] (init scenario_idle) = Fault BitIndexOutOfRange
  ∧ BitIndexOutOfRange = BitIndexOutOfRange.
Proof.
  split; [reflexivity|].
  apply (run_faults_only_out_of_range 4 scenario_idle [Invoke 2; Invoke 4; Run 0; Run 1]).
  - repeat split; reflexivity.
  - reflexivity.
Defined.

(** ** The scenario, evaluated *)

(** Run one after the other, the three calls return true, false, true
    and leave the state the interleaved schedule leaves. *)
Example scenario_sequential :
  record_all [2; 2; 0] (mkWorld scenario_idle [])
  = Ok ([true; false; true], shared scenario_sealed).
Proof. reflexivity. Qed.

Example scenario_failed_regions : failed_regions (shared scenario_sealed) = [2; 0].
Proof. reflexivity. Qed.

(** After [reset], region 2 is recorded again, at slot 0. *)
Example scenario_after_reset :
  record 2 (mkWorld (reset (tracker (shared scenario_sealed))) [])
  = Ok (true, mkWorld (mkTracker [false; false; true; false] [2; 0; 9; 9] 1) [2]).
Proof. reflexivity. Qed.

(** While stores are pending, the slots below the length counter still
    hold what the storage held: the sequence is read only once every
    invocation has returned. *)
Example scenario_racing_slots : failed_regions (shared scenario_racing) = [9; 9].
Proof. reflexivity. Qed.

(** A region index outside the bitmap is the only fault the machine
    reaches. *)
Example record_out_of_range :
  record 4 (mkWorld scenario_idle []) = Fault BitIndexOutOfRange.
Proof. reflexivity. Qed.

(** * Further properties of [record] *)

(** ** Slots are reserved by one invocation each *)

Lemma omap_nodup_lookup {A B} (f : A → option B) (l : list A) j1 j2 x y z :
  NoDup (omap f l) →
  l !! j1 = Some x → l !! j2 = Some y →
  f x = Some z → f y = Some z →
  j1 = j2.
Proof.
  revert j1 j2. induction l as [|a l IH]; intros j1 j2 Hnd H1 H2 Hx Hy; [done|].
  assert (Hin : ∀ j u, l !! j = Some u → f u = Some z → z ∈ omap f l).
  { intros j u Hj Hu. apply list_elem_of_omap. exists u. split; [|done].
    by eapply list_elem_of_lookup_2. }
  csimpl in Hnd.
  destruct j1 as [|j1], j2 as [|j2]; simpl in *; simplify_eq; try done.
  - rewrite Hx in Hnd. apply NoDup_cons in Hnd as [Hnot _].
    destruct Hnot. by eapply Hin.
  - rewrite Hy in Hnd. apply NoDup_cons in Hnd as [Hnot _].
    destruct Hnot. by eapply Hin.
  - f_equal. apply IH; try done.
    destruct (f a); [by apply NoDup_cons in Hnd as [_ ?]|done].
Qed.

(** In a Recording phase no two invocations hold the same array
    offset between their counter increment and their array store, and
    every offset held is below the length counter and inside the
    array: each slot is written by one invocation only. *)
Theorem pending_stores_disjoint max_regions c tid1 tid2 r1 r2 off1 off2 :
  reachable max_regions c →
  pool c !! tid1 = Some (AtStore r1 off1) →
  pool c !! tid2 = Some (AtStore r2 off2) →
  (off1 = off2 → tid1 = tid2)
  ∧ off1 < cur_length (shared c)
  ∧ cur_length (shared c) ≤ N.of_nat (length (slots (shared c))).
Proof.
  intros HI%Inv_reachable H1 H2.
  destruct (inv_log _ _ HI) as (glog & Hlen & Hperm & Hslots & Hstore).
  pose proof (Hstore r1 off1 (list_elem_of_lookup_2 _ _ _ H1)) as Hg1.
  pose proof (Hstore r2 off2 (list_elem_of_lookup_2 _ _ _ H2)) as Hg2.
  split_and!.
  - intros ->. rewrite Hg1 in Hg2. injection Hg2 as ->.
    by eapply (omap_nodup_lookup won (pool c) tid1 tid2 _ _ r2 (inv_won_nodup _ _ HI)).
  - apply lookup_lt_Some in Hg1. lia.
  - pose proof (Inv_cur_length _ _ HI). rewrite (inv_array_size _ _ HI). lia.
Qed.

Lemma pending_stores_disjoint_witness :
  ((1 : N) = 0 → 0%nat = 2%nat)
  ∧ 1 < cur_length (shared scenario_racing)
  ∧ cur_length (shared scenario_racing)
    ≤ N.of_nat (length (slots (shared scenario_racing))).
Proof.
  apply (pending_stores_disjoint 4 scenario_racing 0 2 2 0 1 0).
  - exists scenario_idle, scenario_racing_schedule.
    split; [repeat split; reflexivity | reflexivity].
  - reflexivity.
  - reflexivity.
Defined.

(** ** A notified region is already in the array *)

Lemma won_unique max_regions c i j r :
  Inv max_regions c → i ∈ pool c → j ∈ pool c →
  won i = Some r → won j = Some r → i = j.
Proof.
  intros HI [ti Hi]%list_elem_of_lookup_1 [tj Hj]%list_elem_of_lookup_1 Hwi Hwj.
  assert (ti = tj) as ->
    by by eapply (omap_nodup_lookup won (pool c) ti tj _ _ r (inv_won_nodup _ _ HI)).
  congruence.
Qed.

(** At every point of a Recording phase, a region whose region object
    has been notified has its presence bit set and is stored in the
    array at an index below the length counter (the store of line 37
    precedes the notification of line 41), and a presence bit is set
    only for a region that some invocation of [record] was given. *)
Theorem notified_region_is_logged max_regions c r :
  reachable max_regions c →
  (r ∈ heap (shared c) →
     bit_set (shared c) r = true
     ∧ ∃ i, N.of_nat i < cur_length (shared c) ∧ slots (shared c) !! i = Some r)
  ∧ (bit_set (shared c) r = true → ∃ i, i ∈ pool c ∧ region_of i = r).
Proof.
  intros HI%Inv_reachable. split.
  - intros Hin. rewrite (inv_heap _ _ HI) in Hin.
    apply elem_of_omap_notified in Hin.
    split; [by apply (inv_returned _ _ HI r true)|].
    destruct (inv_log _ _ HI) as (glog & Hlen & Hperm & Hslots & Hstore).
    assert (Hres : r ∈ glog).
    { rewrite Hperm. apply list_elem_of_omap. by exists (Returned r true). }
    apply list_elem_of_lookup_1 in Hres as [i Hi]. exists i. split.
    { apply lookup_lt_Some in Hi. lia. }
    destruct (Hslots i r Hi) as [|Hstoring]; [done|].
    by pose proof (won_unique _ _ _ _ r HI Hin Hstoring eq_refl eq_refl).
  - intros Hbit. apply (inv_bits _ _ HI) in Hbit.
    apply list_elem_of_omap in Hbit as (i & Hi & Hwon). exists i. split; [done|].
    by destruct i as [| | | |? []]; simplify_eq/=.
Qed.

Lemma notified_region_is_logged_witness :
  (0 ∈ heap (shared scenario_sealed) →
     bit_set (shared scenario_sealed) 0 = true
     ∧ ∃ i, N.of_nat i < cur_length (shared scenario_sealed)
            ∧ slots (shared scenario_sealed) !! i = Some 0)
  ∧ (bit_set (shared scenario_sealed) 0 = true →
     ∃ i, i ∈ pool scenario_sealed ∧ region_of i = 0).
Proof.
  apply (notified_region_is_logged 4 scenario_sealed 0).
  exists scenario_idle, scenario_schedule.
  split; [repeat split; reflexivity | reflexivity].
Defined.

(** ** Stored slots are never written again *)

Lemma take_agree {A} (l l' : list A) (n : nat) :
  (∀ i, (i < n)%nat → l' !! i = l !! i) → take n l' = take n l.
Proof.
  intros H. apply list_eq. intros i. rewrite !lookup_take.
  case_decide; auto.
Qed.

Lemma exec_keeps_slots max_regions a c c' :
  Inv max_regions c → exec a c = Ok c' →
  cur_length (shared c) ≤ cur_length (shared c')
  ∧ ∀ i, N.of_nat i < cur_length (shared c) →
         N.of_nat i ∉ pending_offsets (pool c) →
         slots (shared c') !! i = slots (shared c) !! i
         ∧ N.of_nat i ∉ pending_offsets (pool c').
Proof.
  intros HI Hexec. destruct c as [[[bm arr len] h] p].
  destruct a as [r|tid]; simpl in Hexec.
  { injection Hexec as <-. unfold cur_length, slots, pending_offsets. simpl.
    split; [lia|]. intros i _ Hnot. by rewrite omap_app, app_nil_r. }
  destruct (p !! tid) as [inv|] eqn:Htid; [|by injection Hexec as <-].
  destruct (pool_at p tid inv Htid) as (l1 & l2 & -> & Hins).
  destruct (step inv _) as [[inv' w']|] eqn:Hstep; simpl in Hexec; [|done].
  injection Hexec as <-. rewrite Hins.
  unfold cur_length, slots, pending_offsets in *. simpl.
  destruct inv as [r|r|r off|r|r b]; simpl in Hstep.
  - destruct (BitMap.par_set_bit r bm) as [[[] bm']|]; simpl in Hstep; [| |done];
      injection Hstep as <- <-; simpl; (split; [lia|]);
      intros i _ Hnot; by rewrite omap_middle in *.
  - injection Hstep as <- <-. simpl.
    destruct (Inv_fetch_add _ _ _ _ _ _ _ _ HI) as [Hroom _].
    pose proof (inv_max _ _ HI).
    rewrite uint_wrap_small by lia. split; [lia|].
    intros i Hi Hnot. split; [done|].
    rewrite omap_middle in *. simpl in *.
    rewrite elem_of_app, elem_of_cons. rewrite elem_of_app in Hnot.
    intros [?|[?|?]]; [tauto|lia|tauto].
  - destruct (array_store arr off r) as [arr'|] eqn:Hst; simpl in Hstep; [|done].
    injection Hstep as <- <-. simpl. split; [lia|].
    intros i Hi Hnot. rewrite omap_middle in *. simpl in *.
    rewrite elem_of_app, elem_of_cons in Hnot.
    unfold array_store in Hst. destruct (off <? _); [|done]. injection Hst as <-.
    rewrite list_lookup_insert_ne by (intros Heq; apply Hnot; right; left; lia).
    split; [done|]. rewrite elem_of_app. tauto.
  - injection Hstep as <- <-. simpl. split; [lia|].
    intros i _ Hnot. by rewrite omap_middle in *.
  - injection Hstep as <- <-. simpl. split; [lia|].
    intros i _ Hnot. by rewrite omap_middle in *.
Qed.

Lemma run_keeps_slots max_regions sched c c' :
  Inv max_regions c → run sched c = Ok c' →
  cur_length (shared c) ≤ cur_length (shared c')
  ∧ ∀ i, N.of_nat i < cur_length (shared c) →
         N.of_nat i ∉ pending_offsets (pool c) →
         slots (shared c') !! i = slots (shared c) !! i.
Proof.
  revert c. induction sched as [|a sched IH]; simpl; intros c HI Hrun.
  - injection Hrun as <-. split; [lia|done].
  - pose proof (Inv_exec max_regions a c HI) as HI1.
    destruct (exec a c) as [c1|] eqn:Hexec; simpl in Hrun; [|done].
    destruct (exec_keeps_slots _ _ _ _ HI Hexec) as [Hle1 Hslot1].
    destruct (IH c1 HI1 Hrun) as [Hle Hslot].
    split; [lia|]. intros i Hi Hnot.
    destruct (Hslot1 i Hi Hnot) as [Heq Hnot1].
    rewrite <- Heq. apply Hslot; [lia|done].
Qed.

(** Whatever runs next in a Recording phase, the length counter does
    not decrease, and a slot below the length counter that no
    invocation is about to store into keeps its content.  When no
    store at all is pending, the failed-region sequence read now is a
    prefix of the one read after any further steps: [record] only
    appends. *)
Theorem stored_slots_are_kept max_regions c sched c' :
  reachable max_regions c → run sched c = Ok c' →
  cur_length (shared c) ≤ cur_length (shared c')
  ∧ (∀ i, N.of_nat i < cur_length (shared c) →
          N.of_nat i ∉ pending_offsets (pool c) →
          slots (shared c') !! i = slots (shared c) !! i)
  ∧ (pending_offsets (pool c) = [] →
     failed_regions (shared c) `prefix_of` failed_regions (shared c')).
Proof.
  intros HI%Inv_reachable Hrun.
  destruct (run_keeps_slots _ _ _ _ HI Hrun) as [Hle Hslot].
  split_and!; [done..|]. intros Hnone.
  unfold failed_regions.
  rewrite <- (take_agree (slots (shared c)) (slots (shared c'))
                (N.to_nat (cur_length (shared c)))).
  - exists (take (N.to_nat (cur_length (shared c')) - N.to_nat (cur_length (shared c)))
                 (drop (N.to_nat (cur_length (shared c))) (slots (shared c')))).
    rewrite take_take_drop. f_equal. lia.
  - intros i Hi. apply Hslot; [lia|]. rewrite Hnone. apply not_elem_of_nil.
Qed.

Lemma stored_slots_are_kept_witness :
  cur_length (shared scenario_sealed) ≤ 3
  ∧ (∀ i, N.of_nat i < cur_length (shared scenario_sealed) →
          N.of_nat i ∉ pending_offsets (pool scenario_sealed) →
          [2; 0; 3; 9] !! i = slots (shared scenario_sealed) !! i)
  ∧ (pending_offsets (pool scenario_sealed) = [] →
     failed_regions (shared scenario_sealed) `prefix_of` [2; 0; 3]).
Proof.
  apply (stored_slots_are_kept 4 scenario_sealed
           [Invoke 3; Invoke 0; Run 3; Run 4; Run 3; Run 3; Run 3]
           (mkConfig (mkWorld (mkTracker [true; false; true; true] [2; 0; 3; 9] 3) [2; 0; 3])
                     [Returned 2 true; Returned 2 false; Returned 0 true;
                      Returned 3 true; Returned 0 false])).
  - exists scenario_idle, scenario_schedule.
    split; [repeat split; reflexivity | reflexivity].
  - reflexivity.
Defined.

(** ** The regions recorded are the regions [record] was given *)

Lemma run_pool_regions sched c c' :
  run sched c = Ok c' →
  region_of <$> pool c' = (region_of <$> pool c) ++ invoked sched.
Proof.
  revert c. induction sched as [|a sched IH]; intros c; simpl.
  - intros [= <-]. by rewrite app_nil_r.
  - destruct (exec a c) as [c1|] eqn:Hexec; simpl; [|done].
    intros Hrun. rewrite (IH c1 Hrun). clear IH Hrun.
    destruct a as [r|tid]; simpl in Hexec; unfold invoked; csimpl.
    + injection Hexec as <-. simpl. by rewrite fmap_app, <- app_assoc.
    + f_equal. destruct (pool c !! tid) as [i|] eqn:Hi; [|by injection Hexec as <-].
      destruct (step i (shared c)) as [[i' w']|] eqn:Hstep; simpl in Hexec; [|done].
      injection Hexec as <-. simpl.
      rewrite list_fmap_insert, (step_region_of _ _ _ _ Hstep).
      apply list_insert_id. by rewrite list_lookup_fmap, Hi.
Qed.

Lemma sealed_members max_regions c :
  sealed max_regions c →
  failed_regions (shared c) ≡ₚ remove_dups (region_of <$> pool c)
  ∧ heap (shared c) ≡ₚ remove_dups (region_of <$> pool c)
  ∧ ∀ r, bit_set (shared c) r = true ↔ r ∈ region_of <$> pool c.
Proof.
  intros Hsealed. destruct (sealed_log _ _ Hsealed) as (Hnd & Hperm & _).
  destruct Hsealed as [HI%Inv_reachable Hall].
  destruct (all_returned_omap _ Hall) as [Hwon _].
  assert (Hmem : ∀ r, r ∈ omap notified (pool c) ↔ r ∈ region_of <$> pool c).
  { intros r. rewrite elem_of_omap_notified, list_elem_of_fmap. split.
    - intros Hin. by exists (Returned r true).
    - intros (i & -> & Hin).
      assert (Hret : is_returned i = true).
      { rewrite forallb_forall in Hall. by apply Hall, list_elem_of_In. }
      destruct i as [| | | |r b]; try done. simpl.
      apply elem_of_omap_notified. rewrite <- Hwon. apply (inv_bits _ _ HI).
      by apply (inv_returned _ _ HI r b). }
  assert (Hlist : omap notified (pool c) ≡ₚ remove_dups (region_of <$> pool c)).
  { apply NoDup_Permutation; [done|apply NoDup_remove_dups|].
    intros r. by rewrite elem_of_remove_dups. }
  split_and!.
  - by rewrite Hperm.
  - by rewrite (inv_heap _ _ HI).
  - intros r. by rewrite (inv_bits _ _ HI), Hwon.
Qed.

(** Whatever the interleaving, once every invocation of a schedule
    run from an idle tracker has returned, the failed-region sequence
    is the region ids the schedule passed to [record], each once, in
    some order; the notifications issued are the same regions; and a
    presence bit is set exactly for those regions. *)
Theorem sealed_regions_are_the_invoked max_regions this sched c :
  idle max_regions this →
  run sched (init this) = Ok c →
  forallb is_returned (pool c) = true →
  failed_regions (shared c) ≡ₚ remove_dups (invoked sched)
  ∧ heap (shared c) ≡ₚ remove_dups (invoked sched)
  ∧ ∀ r, bit_set (shared c) r = true ↔ r ∈ invoked sched.
Proof.
  intros Hidle Hrun Hall.
  assert (Hsealed : sealed max_regions c) by (split; [by exists this, sched|done]).
  pose proof (run_pool_regions _ _ _ Hrun) as Hregions. simpl in Hregions.
  rewrite <- Hregions. by apply (sealed_members max_regions).
Qed.

Lemma sealed_regions_are_the_invoked_witness :
  failed_regions (shared scenario_sealed) ≡ₚ remove_dups (invoked scenario_schedule)
  ∧ heap (shared scenario_sealed) ≡ₚ remove_dups (invoked scenario_schedule)
  ∧ ∀ r, bit_set (shared scenario_sealed) r = true ↔ r ∈ invoked scenario_schedule.
Proof.
  apply (sealed_regions_are_the_invoked 4 scenario_idle scenario_schedule scenario_sealed).
  - repeat split; reflexivity.
  - reflexivity.
  - reflexivity.
Defined.

(** ** An invocation returns after four of its own steps *)

Lemma step_steps_left i w i' w' :
  step i w = Ok (i', w') → (steps_left i' ≤ steps_left i - 1)%nat.
Proof.
  destruct i as [r|r|r off|r|r b]; simpl.
  - destruct (BitMap.par_set_bit _ _) as [[[] bm]|]; simpl; [| |done];
      intros [= <- <-]; simpl; lia.
  - intros [= <- <-]. simpl. lia.
  - destruct (array_store _ _ _); simpl; [|done]. intros [= <- <-]. simpl. lia.
  - intros [= <- <-]. simpl. lia.
  - intros [= <- <-]. simpl. lia.
Qed.

Lemma exec_steps_left a c c' tid i :
  exec a c = Ok c' → pool c !! tid = Some i →
  ∃ i', pool c' !! tid = Some i'
      ∧ region_of i' = region_of i
      ∧ (steps_left i' ≤ steps_left i - if decide (a = Run tid) then 1 else 0)%nat.
Proof.
  intros Hexec Hi. destruct a as [r|tid']; simpl in Hexec.
  - injection Hexec as <-. exists i. rewrite decide_False by done. simpl.
    rewrite lookup_app_l by by eapply lookup_lt_Some.
    split_and!; [done..|lia].
  - destruct (decide (tid' = tid)) as [->|Hne].
    + rewrite Hi in Hexec. rewrite decide_True by done.
      destruct (step i (shared c)) as [[i' w']|] eqn:Hstep; simpl in Hexec; [|done].
      injection Hexec as <-. exists i'. simpl.
      rewrite list_lookup_insert_eq by by eapply lookup_lt_Some.
      split_and!; [done|by eapply step_region_of|by eapply step_steps_left].
    + exists i. rewrite decide_False by congruence.
      destruct (pool c !! tid') as [j|];
        [|injection Hexec as <-; split_and!; [done..|lia]].
      destruct (step j (shared c)) as [[j' w']|]; simpl in Hexec; [|done].
      injection Hexec as <-. simpl. rewrite list_lookup_insert_ne by done.
      split_and!; [done..|lia].
Qed.

Lemma run_steps_left max_regions sched c tid i :
  Inv max_regions c →
  Forall (λ i, region_of i < max_regions) (pool c) →
  Forall (in_range max_regions) sched →
  pool c !! tid = Some i →
  ∃ c' i', run sched c = Ok c'
      ∧ pool c' !! tid = Some i'
      ∧ region_of i' = region_of i
      ∧ (steps_left i' ≤ steps_left i - runs_of tid sched)%nat.
Proof.
  revert c i. induction sched as [|a sched IH]; intros c i HI Hp Hs Hi.
  - exists c, i. split_and!; [done..|]. unfold runs_of. simpl. lia.
  - apply Forall_cons in Hs as [Ha Hs].
    destruct (exec_in_range _ _ _ HI Ha Hp) as (c1 & Hexec & HI1 & Hp1).
    destruct (exec_steps_left _ _ _ _ _ Hexec Hi) as (i1 & Hi1 & Hr1 & Hl1).
    destruct (IH c1 i1 HI1 Hp1 Hs Hi1) as (c' & i' & Hrun & Hi' & Hr' & Hl').
    exists c', i'. simpl. rewrite Hexec. simpl.
    split_and!; [done..|congruence|].
    unfold runs_of in *. rewrite (filter_cons _ a).
    destruct (decide (a = Run tid)); simpl in *; lia.
Qed.

(** [record] is wait-free at the grain of its statements: in a
    Recording phase whose region ids are all in range, an invocation
    that the schedule lets execute four times has returned, whatever
    the other invocations do in between and however many there are. *)
Theorem record_returns_within_four_steps max_regions c sched tid i :
  reachable max_regions c →
  Forall (λ i, region_of i < max_regions) (pool c) →
  Forall (in_range max_regions) sched →
  pool c !! tid = Some i →
  (4 ≤ runs_of tid sched)%nat →
  ∃ c' b, run sched c = Ok c' ∧ pool c' !! tid = Some (Returned (region_of i) b).
Proof.
  intros HI%Inv_reachable Hp Hs Hi Hruns.
  destruct (run_steps_left _ _ _ _ _ HI Hp Hs Hi) as (c' & i' & Hrun & Hi' & Hr & Hl).
  assert (Hzero : steps_left i' = 0%nat) by (destruct i; simpl in Hl; lia).
  destruct i' as [| | | |r b]; try done. simpl in Hr. subst r.
  by exists c', b.
Qed.

Lemma record_returns_within_four_steps_witness :
  ∃ c' b, run [Run 1; Run 0; Run 1; Invoke 3; Run 1; Run 3; Run 2; Run 1] scenario_racing
          = Ok c'
        ∧ pool c' !! 1%nat = Some (Returned (region_of (AtSetBit 2)) b).
Proof.
  apply (record_returns_within_four_steps 4 scenario_racing
           [Run 1; Run 0; Run 1; Invoke 3; Run 1; Run 3; Run 2; Run 1] 1 (AtSetBit 2)).
  - exists scenario_idle, scenario_racing_schedule.
    split; [repeat split; reflexivity | reflexivity].
  - unfold scenario_racing. simpl. repeat constructor.
  - repeat constructor.
  - reflexivity.
  - vm_compute. lia.
Defined.

(** ** Calls made one after the other *)

Lemma take_extend {A} (l : list A) (n : nat) (x : A) :
  (n < length l)%nat → take (S n) (<[n := x]> l) = take n l ++ [x].
Proof.
  intros Hn. rewrite (take_S_r _ n x) by by apply list_lookup_insert_eq.
  by rewrite take_insert_ge.
Qed.

Lemma record_keeps_sealed max_regions c r b w1 :
  sealed max_regions c → record r (shared c) = Ok (b, w1) →
  sealed max_regions (mkConfig w1 (pool c ++ [Returned r b])).
Proof.
  intros [Hreach Hret] Hrec%record_as_run. split.
  - exact (reachable_run _ _ _ _ Hreach Hrec).
  - simpl. rewrite forallb_app, Hret. reflexivity.
Qed.

Lemma record_all_from_seen max_regions calls :
  ∀ c seen,
    sealed max_regions c →
    (∀ r, bit_set (shared c) r = true ↔ r ∈ seen) →
    Forall (λ r, r < max_regions) calls →
    ∃ bs w',
      record_all calls (shared c) = Ok (bs, w')
      ∧ failed_regions w' = failed_regions (shared c) ++ first_occurrences seen calls
      ∧ heap w' = heap (shared c) ++ first_occurrences seen calls
      ∧ (∀ i, bs !! i = Some true
              ↔ ∃ r, calls !! i = Some r ∧ (r ∉ seen) ∧ (r ∉ take i calls))
      ∧ length bs = length calls.
Proof.
  induction calls as [|r calls IH]; intros c seen Hsealed Hseen Hcalls.
  { exists [], (shared c). simpl. rewrite !app_nil_r. split_and!; try done.
    intros i. split; [done|]. by intros (r & ? & _). }
  apply Forall_cons in Hcalls as [Hr Hcalls].
  pose proof (Inv_reachable _ _ (proj1 Hsealed)) as HI.
  destruct (bit_set (shared c) r) eqn:Hbit.
  - (* the region was recorded before: nothing changes *)
    pose proof (record_already_set _ _ Hbit) as Hrec.
    pose proof (record_keeps_sealed _ _ _ _ _ Hsealed Hrec) as Hsealed1.
    destruct (IH _ seen Hsealed1 Hseen Hcalls) as (bs & w' & Hall & Hlog & Hheap & Hflags & Hlen).
    simpl in Hall, Hlog, Hheap.
    exists (false :: bs), w'. cbn [record_all]. rewrite Hrec. cbn [bind]. rewrite Hall.
    cbn [bind first_occurrences]. apply Hseen in Hbit. rewrite decide_True by done.
    split_and!; [done..| |by (simpl; rewrite Hlen)].
    intros [|i]; simpl.
    + split; [done|]. by intros (? & [= <-] & ? & _).
    + rewrite Hflags. split; intros (r' & Hi & Hns & Hnt); exists r'; split_and!; try done.
      * rewrite not_elem_of_cons. split; [|done]. by intros ->.
      * by apply not_elem_of_cons in Hnt as [_ ?].
  - (* first call for the region: it is appended and notified *)
    assert (Hsize : r < BitMap.size (_regions_failed_evacuation (tracker (shared c)))).
    { unfold BitMap.size. rewrite (inv_bitmap_size _ _ HI). lia. }
    pose proof (Inv_room _ _ _ HI Hr Hbit) as Hroom.
    pose proof (record_claims _ _ Hsize Hbit Hroom) as Hrec.
    pose proof (record_keeps_sealed _ _ _ _ _ Hsealed Hrec) as Hsealed1.
    assert (Hwrap : uint_wrap (cur_length (shared c) + 1) = cur_length (shared c) + 1).
    { apply uint_wrap_small. pose proof (inv_max _ _ HI).
      rewrite (inv_array_size _ _ HI) in Hroom. lia. }
    destruct (IH _ (r :: seen) Hsealed1) as (bs & w' & Hall & Hlog & Hheap & Hflags & Hlen);
      [|done|].
    { intros r'. unfold bit_set. simpl. rewrite elem_of_cons, <- Hseen.
      destruct (decide (r = r')) as [->|Hne].
      - rewrite at_insert_eq by done. tauto.
      - rewrite at_insert_ne by done. unfold bit_set. split; [tauto|].
        intros [?|?]; [congruence|done]. }
    simpl in Hall, Hlog, Hheap.
    exists (true :: bs), w'. cbn [record_all]. rewrite Hrec. cbn [bind]. rewrite Hall.
    cbn [bind first_occurrences].
    assert (Hnew : r ∉ seen) by (rewrite <- Hseen; congruence).
    rewrite decide_False by done.
    split_and!; [done| | | |by (simpl; rewrite Hlen)].
    + rewrite Hlog. unfold failed_regions, cur_length, slots. simpl.
      fold (cur_length (shared c)). fold (slots (shared c)). rewrite Hwrap.
      replace (N.to_nat (cur_length (shared c) + 1))
        with (S (N.to_nat (cur_length (shared c)))) by lia.
      rewrite take_extend by lia. by rewrite <- app_assoc.
    + rewrite Hheap. by rewrite <- app_assoc.
    + intros [|i]; simpl.
      * split; [|done]. intros _. exists r. split_and!; [done..|]. apply not_elem_of_nil.
      * rewrite Hflags. split; intros (r' & Hi & Hns & Hnt); exists r'.
        -- apply not_elem_of_cons in Hns as [Hne Hns].
           split_and!; [done..|]. rewrite not_elem_of_cons. split; [congruence|done].
        -- apply not_elem_of_cons in Hnt as [Hne Hnt].
           split_and!; [done| |done]. rewrite not_elem_of_cons. split; [congruence|done].
Qed.

(** Calls of [record] made one after the other on an idle tracker,
    with region ids in range: none faults; a call returns true exactly
    when no earlier call had the same region id; the failed-region
    sequence at the end is the region ids in the order of their first
    call, the regions were notified in that same order, and the length
    counter is the number of distinct region ids. *)
Theorem record_all_first_occurrences max_regions this calls :
  idle max_regions this →
  Forall (λ r, r < max_regions) calls →
  ∃ bs w',
    record_all calls (mkWorld this []) = Ok (bs, w')
    ∧ length bs = length calls
    ∧ (∀ i, bs !! i = Some true ↔ ∃ r, calls !! i = Some r ∧ r ∉ take i calls)
    ∧ failed_regions w' = first_occurrences [] calls
    ∧ heap w' = first_occurrences [] calls
    ∧ cur_length w' = N.of_nat (length (first_occurrences [] calls)).
Proof.
  intros Hidle Hcalls.
  assert (Hsealed : sealed max_regions (init this)) by (split; [by exists this, []|done]).
  destruct (record_all_from_seen max_regions calls (init this) [] Hsealed)
    as (bs & w' & Hall & Hlog & Hheap & Hflags & Hlen); [|done|].
  { intros r. destruct Hidle as (_ & Hbm & _). unfold bit_set. simpl.
    rewrite Hbm, at_replicate_false. split; [done|]. intros H. by apply elem_of_nil in H. }
  assert (Hempty : failed_regions (shared (init this)) = []).
  { destruct Hidle as (_ & _ & _ & Hzero). unfold failed_regions, cur_length. simpl.
    by rewrite Hzero. }
  rewrite Hempty in Hlog. simpl in Hall, Hlog, Hheap.
  exists bs, w'. split_and!; try done.
  - intros i. rewrite Hflags. split.
    + intros (r & ? & _ & ?). by exists r.
    + intros (r & ? & ?). exists r. split_and!; [done| |done]. apply not_elem_of_nil.
  - pose proof (record_all_sealed _ _ _ _ _ Hidle Hall) as [HI%Inv_reachable _].
    pose proof (Inv_cur_length _ _ HI) as Hle. simpl in Hle.
    pose proof (inv_array_size _ _ HI) as Harr. simpl in Harr.
    rewrite <- Hlog. unfold failed_regions. rewrite length_take. lia.
Qed.

Lemma record_all_first_occurrences_witness :
  ∃ bs w',
    record_all [2; 2; 0; 3; 0; 2] (mkWorld scenario_idle []) = Ok (bs, w')
    ∧ length bs = length [2; 2; 0; 3; 0; 2]
    ∧ (∀ i, bs !! i = Some true
            ↔ ∃ r, [2; 2; 0; 3; 0; 2] !! i = Some r ∧ r ∉ take i [2; 2; 0; 3; 0; 2])
    ∧ failed_regions w' = first_occurrences [] [2; 2; 0; 3; 0; 2]
    ∧ heap w' = first_occurrences [] [2; 2; 0; 3; 0; 2]
    ∧ cur_length w' = N.of_nat (length (first_occurrences [] [2; 2; 0; 3; 0; 2])).
Proof.
  apply (record_all_first_occurrences 4 scenario_idle [2; 2; 0; 3; 0; 2]).
  - repeat split; reflexivity.
  - repeat constructor.
Defined.

Example first_occurrences_example : first_occurrences [] [2; 2; 0; 3; 0; 2] = [2; 0; 3].
Proof. reflexivity. Qed.

(** ** Every interleaving is some sequential order *)

Lemma record_all_schedule calls c bs w' :
  record_all calls (shared c) = Ok (bs, w') →
  ∃ sched, run sched c = Ok (mkConfig w' (pool c ++ zip_with Returned calls bs)).
Proof.
  revert c bs. induction calls as [|r calls IH]; intros c bs; simpl.
  - intros [= <- <-]. exists []. simpl. rewrite app_nil_r. by destruct c.
  - destruct (record r (shared c)) as [[b w1]|] eqn:Hrec; simpl; [|done].
    destruct (record_all calls w1) as [[bs' w2]|] eqn:Hall; simpl; [|done].
    intros [= <- <-]. apply record_as_run in Hrec.
    destruct (IH (mkConfig w1 (pool c ++ [Returned r b])) bs' Hall) as [sched Hrun].
    exists ((Invoke r :: replicate 4 (Run (length (pool c)))) ++ sched).
    rewrite run_app, Hrec. simpl in *. by rewrite <- app_assoc in Hrun.
Qed.

Lemma Inv_store_reserved max_regions c r off :
  Inv max_regions c → AtStore r off ∈ pool c → off < cur_length (shared c).
Proof.
  intros HI Hin. destruct (inv_log _ _ HI) as (glog & Hlen & _ & _ & Hstore).
  apply Hstore, lookup_lt_Some in Hin. lia.
Qed.

(** The slots at and above the length counter are never written. *)
Lemma exec_keeps_free_slots max_regions a c c' i :
  Inv max_regions c → exec a c = Ok c' →
  cur_length (shared c) ≤ N.of_nat i →
  slots (shared c') !! i = slots (shared c) !! i.
Proof.
  intros HI Hexec Hi. destruct a as [r|tid]; simpl in Hexec; [by injection Hexec as <-|].
  destruct (pool c !! tid) as [inv|] eqn:Htid; [|by injection Hexec as <-].
  destruct (step inv (shared c)) as [[inv' w']|] eqn:Hstep; simpl in Hexec; [|done].
  injection Hexec as <-. simpl.
  apply list_elem_of_lookup_2 in Htid.
  destruct c as [[[bm arr len] h] p]. unfold slots, cur_length in *. simpl in *.
  destruct inv as [r|r|r off|r|r b]; simpl in Hstep.
  - destruct (BitMap.par_set_bit r bm) as [[? ?]|]; simpl in Hstep; [|done].
    by injection Hstep as <- <-.
  - by injection Hstep as <- <-.
  - pose proof (Inv_store_reserved _ _ _ _ HI Htid) as Hoff.
    unfold cur_length in Hoff. simpl in Hoff.
    unfold array_store in Hstep. destruct (off <? _); simpl in Hstep; [|done].
    injection Hstep as <- <-. simpl. apply list_lookup_insert_ne. lia.
  - by injection Hstep as <- <-.
  - by injection Hstep as <- <-.
Qed.

Lemma run_keeps_free_slots max_regions sched c c' i :
  Inv max_regions c → run sched c = Ok c' →
  cur_length (shared c') ≤ N.of_nat i →
  slots (shared c') !! i = slots (shared c) !! i.
Proof.
  revert c. induction sched as [|a sched IH]; simpl; intros c HI Hrun Hi.
  - by injection Hrun as <-.
  - pose proof (Inv_exec max_regions a c HI) as HI1.
    destruct (exec a c) as [c1|] eqn:Hexec; simpl in Hrun; [|done].
    destruct (run_keeps_slots _ _ _ _ HI1 Hrun) as [Hle _].
    rewrite (IH c1 HI1 Hrun Hi).
    eapply exec_keeps_free_slots; [done..|].
    destruct (exec_keeps_slots _ _ _ _ HI Hexec) as [Hle0 _]. lia.
Qed.

Lemma forallb_filter {A} (f : A → bool) (P : A → Prop) `{!∀ x, Decision (P x)} l :
  forallb f l = true → forallb f (filter P l) = true.
Proof.
  induction l as [|a l IH]; [done|]. simpl. intros [Ha Hl]%andb_prop.
  rewrite filter_cons. destruct (decide (P a)); simpl; [rewrite Ha|]; auto.
Qed.

Lemma calls_of_regions r p :
  length (calls_of r p) = length (filter (λ x, x = r) (region_of <$> p)).
Proof.
  unfold calls_of. induction p as [|i p IH]; [done|]. csimpl.
  rewrite !filter_cons. destruct (decide (region_of i = r)); simpl; by rewrite IH.
Qed.

(** In a sealed configuration the numbers of true and of false returns
    for a region depend only on how many invocations it had. *)
Lemma sealed_return_counts max_regions c r b :
  sealed max_regions c →
  returns_of r b (pool c) =
    let n := length (filter (λ x, x = r) (region_of <$> pool c)) in
    if b then (if decide (r ∈ region_of <$> pool c) then 1 else 0)%nat
    else (n - if decide (r ∈ region_of <$> pool c) then 1 else 0)%nat.
Proof.
  intros Hsealed. destruct (sealed_members _ _ Hsealed) as (_ & _ & Hbits).
  destruct Hsealed as [HI%Inv_reachable Hall].
  destruct (returned_calls_count r (pool c)) as [Hwon Htotal].
  { by apply forallb_filter. }
  rewrite calls_of_regions in Htotal.
  assert (Htrue : returns_of r true (pool c)
                  = if decide (r ∈ region_of <$> pool c) then 1%nat else 0%nat).
  { rewrite <- Hwon. destruct (decide _) as [Hin|Hnot].
    - apply filter_eq_nodup; [apply (inv_won_nodup _ _ HI)|].
      by apply (inv_bits _ _ HI), Hbits.
    - apply filter_eq_absent. intros Hin. by apply Hnot, Hbits, (inv_bits _ _ HI). }
  destruct b; simpl; [done|]. lia.
Qed.

Lemma first_occurrences_seen seen rest :
  (∀ x, x ∈ rest → x ∈ seen) → first_occurrences seen rest = [].
Proof.
  induction rest as [|x rest IH]; [done|]. intros Hsub. simpl.
  rewrite decide_True by (apply Hsub; by left). apply IH.
  intros y Hy. apply Hsub. by right.
Qed.

Lemma first_occurrences_app seen l rest :
  NoDup l → (∀ x, x ∈ l → x ∉ seen) → (∀ x, x ∈ rest → x ∈ seen ∨ x ∈ l) →
  first_occurrences seen (l ++ rest) = l.
Proof.
  revert seen. induction l as [|a l IH]; intros seen Hnd Hnew Hsub; simpl.
  - apply first_occurrences_seen. intros x Hx.
    destruct (Hsub x Hx) as [|H]; [done|by apply elem_of_nil in H].
  - apply NoDup_cons in Hnd as [Ha Hnd].
    rewrite decide_False by (apply Hnew; by left). f_equal. apply IH; [done| |].
    + intros x Hx [->|Hs]%elem_of_cons; [done|]. apply (Hnew x); [by right|done].
    + intros x Hx. rewrite elem_of_cons.
      destruct (Hsub x Hx) as [|[->|]%elem_of_cons]; tauto.
Qed.

Lemma zip_with_Returned_regions calls bs :
  length bs = length calls → region_of <$> zip_with Returned calls bs = calls.
Proof.
  revert bs. induction calls as [|r calls IH]; intros [|b bs] Hlen; try done.
  csimpl. f_equal. apply IH. simpl in Hlen. lia.
Qed.

Lemma bitmap_ext (bm1 bm2 : BitMap.t) :
  length bm1 = length bm2 →
  (∀ bit, BitMap.at_ bm1 bit = BitMap.at_ bm2 bit) → bm1 = bm2.
Proof.
  intros Hlen Hat. apply list_eq. intros i.
  specialize (Hat (N.of_nat i)). unfold BitMap.at_ in Hat. rewrite Nat2N.id in Hat.
  destruct (bm1 !! i) as [b1|] eqn:H1, (bm2 !! i) as [b2|] eqn:H2; simpl in Hat;
    try congruence.
  - apply lookup_lt_Some in H1. apply lookup_ge_None in H2. lia.
  - apply lookup_ge_None in H1. apply lookup_lt_Some in H2. lia.
Qed.

Lemma sealed_log_length max_regions c :
  sealed max_regions c →
  length (failed_regions (shared c)) = N.to_nat (cur_length (shared c)).
Proof.
  intros [HI%Inv_reachable _].
  pose proof (Inv_cur_length _ _ HI) as Hle.
  pose proof (inv_array_size _ _ HI) as Harr.
  unfold failed_regions. rewrite length_take. lia.
Qed.

(** Every outcome of interleaved invocations is the outcome of the
    same calls made one after the other in some order: for a schedule
    run from an idle tracker to the point where every invocation has
    returned, there is an order of the region ids it passed to
    [record] whose sequential execution does not fault, ends with the
    same tracker (bitmap, array and length counter), has notified the
    same regions, and has returned true and false as often for every
    region. *)
Theorem interleaving_is_some_sequential_order max_regions this sched c :
  idle max_regions this →
  run sched (init this) = Ok c →
  forallb is_returned (pool c) = true →
  ∃ calls bs w',
    calls ≡ₚ invoked sched
    ∧ record_all calls (mkWorld this []) = Ok (bs, w')
    ∧ tracker w' = tracker (shared c)
    ∧ heap w' ≡ₚ heap (shared c)
    ∧ ∀ r b, returns_of r b (zip_with Returned calls bs) = returns_of r b (pool c).
Proof.
  intros Hidle Hrun Hall.
  assert (Hsealed : sealed max_regions c) by (split; [by exists this, sched|done]).
  assert (Hsealed0 : sealed max_regions (init this)) by (split; [by exists this, []|done]).
  pose proof (Inv_init _ _ Hidle) as HI0.
  pose proof (Inv_reachable _ _ (proj1 Hsealed)) as HI.
  pose proof (run_pool_regions _ _ _ Hrun) as Hregions. simpl in Hregions.
  destruct (sealed_members _ _ Hsealed) as (Hlog & Hheap & Hbits).
  destruct (sealed_log _ _ Hsealed) as (Hnd & Hperm & _).
  rewrite Hregions in Hlog, Hheap, Hbits.
  (* the order: the regions as the array lists them, then the repeats *)
  assert (Hlognd : NoDup (failed_regions (shared c))) by by rewrite Hperm.
  assert (Hsub : failed_regions (shared c) ⊆+ invoked sched).
  { apply NoDup_submseteq; [done|]. intros x Hx.
    rewrite Hlog in Hx. by rewrite elem_of_remove_dups in Hx. }
  apply submseteq_Permutation in Hsub as [rest Hrest].
  set (calls := failed_regions (shared c) ++ rest).
  assert (Hcalls : Forall (λ r, r < max_regions) calls).
  { apply Forall_forall. intros x Hx. unfold calls in Hx. rewrite <- Hrest in Hx.
    apply Hbits, at_true_lt in Hx. unfold BitMap.size in Hx.
    rewrite (inv_bitmap_size _ _ HI) in Hx. lia. }
  destruct (record_all_from_seen max_regions calls (init this) [] Hsealed0)
    as (bs & w' & Hrec & Hlog' & Hheap' & _ & Hlen); [|done|].
  { intros r. destruct Hidle as (_ & Hbm & _). unfold bit_set. simpl.
    rewrite Hbm, at_replicate_false. split; [done|]. intros H. by apply elem_of_nil in H. }
  assert (Hfirst : first_occurrences [] calls = failed_regions (shared c)).
  { apply first_occurrences_app; [done|intros; apply not_elem_of_nil|].
    intros x Hx. right. rewrite Hlog. apply elem_of_remove_dups.
    rewrite Hrest. apply elem_of_app. by right. }
  assert (Hempty : failed_regions (shared (init this)) = []).
  { destruct Hidle as (_ & _ & _ & Hzero). unfold failed_regions, cur_length. simpl.
    by rewrite Hzero. }
  rewrite Hempty, Hfirst in Hlog'. rewrite Hfirst in Hheap'. simpl in Hrec, Hlog', Hheap'.
  destruct (record_all_schedule calls (init this) bs w' Hrec) as [sched' Hrun'].
  simpl in Hrun'.
  pose proof (record_all_sealed _ _ _ _ _ Hidle Hrec) as Hsealed'.
  pose proof (Inv_reachable _ _ (proj1 Hsealed')) as HI'.
  destruct (sealed_members _ _ Hsealed') as (_ & _ & Hbits'). simpl in Hbits'.
  rewrite zip_with_Returned_regions in Hbits' by done.
  assert (Hcount : cur_length w' = cur_length (shared c)).
  { pose proof (sealed_log_length _ _ Hsealed') as H1.
    pose proof (sealed_log_length _ _ Hsealed) as H2. simpl in H1.
    rewrite Hlog' in H1. lia. }
  assert (Hsame : calls ≡ₚ invoked sched) by (unfold calls; by rewrite Hrest).
  assert (Hbmlen : length (_regions_failed_evacuation (tracker w'))
                   = length (_regions_failed_evacuation (tracker (shared c)))).
  { pose proof (inv_bitmap_size _ _ HI) as H1. pose proof (inv_bitmap_size _ _ HI') as H2.
    simpl in H2. congruence. }
  assert (Hbiteq : ∀ r, bit_set w' r = bit_set (shared c) r).
  { intros r. specialize (Hbits r). specialize (Hbits' r). rewrite Hsame in Hbits'.
    destruct (bit_set w' r), (bit_set (shared c) r); try done.
    - symmetry. by apply Hbits, Hbits'.
    - by apply Hbits', Hbits. }
  assert (Hslots : ∀ i, slots w' !! i = slots (shared c) !! i).
  { intros i. destruct (decide (N.of_nat i < cur_length (shared c))) as [Hlt|Hge].
    - unfold failed_regions in Hlog'. rewrite Hcount in Hlog'.
      rewrite <- (lookup_take_lt (slots w') (N.to_nat (cur_length (shared c)))) by lia.
      rewrite <- (lookup_take_lt (slots (shared c)) (N.to_nat (cur_length (shared c))))
        by lia.
      by rewrite Hlog'.
    - pose proof (run_keeps_free_slots _ _ _ _ i HI0 Hrun') as H1.
      pose proof (run_keeps_free_slots _ _ _ _ i HI0 Hrun) as H2.
      simpl in H1. rewrite H1, H2 by lia. done. }
  exists calls, bs, w'. split_and!; [done..| |by rewrite Hheap', Hheap|].
  - destruct w' as [[bm' arr' len'] h'], c as [[[bm arr len] h] p].
    unfold cur_length, slots, bit_set in *. simpl in *. subst len'.
    f_equal; [by apply bitmap_ext|by apply list_eq].
  - intros r b.
    rewrite (sealed_return_counts _ _ r b Hsealed), Hregions.
    pose proof (sealed_return_counts _ _ r b Hsealed') as Hseq.
    cbn [pool] in Hseq. rewrite Hseq. simpl.
    rewrite zip_with_Returned_regions by done.
    assert (Hn : length (filter (λ x, x = r) calls)
                 = length (filter (λ x, x = r) (invoked sched))) by by rewrite Hsame.
    rewrite Hn.
    destruct (decide (r ∈ calls)) as [Hin|Hnot], (decide (r ∈ invoked sched)) as [Hin2|Hnot2];
      try done.
    + destruct Hnot2. by rewrite <- Hsame.
    + destruct Hnot. by rewrite Hsame.
Qed.

Lemma interleaving_is_some_sequential_order_witness :
  ∃ calls bs w',
    calls ≡ₚ invoked scenario_schedule
    ∧ record_all calls (mkWorld scenario_idle []) = Ok (bs, w')
    ∧ tracker w' = tracker (shared scenario_sealed)
    ∧ heap w' ≡ₚ heap (shared scenario_sealed)
    ∧ ∀ r b, returns_of r b (zip_with Returned calls bs)
             = returns_of r b (pool scenario_sealed).
Proof.
  apply (interleaving_is_some_sequential_order 4 scenario_idle scenario_schedule
           scenario_sealed).
  - repeat split; reflexivity.
  - reflexivity.
  - reflexivity.
Defined.
